(** * DiscordAutoDelete: the expiration registry, the wake scheduler and the
      batch deletion executor

    A shallow embedding of [discord_autodelete/MessageRegistry.py] and of the
    scheduling and deletion logic of [discord_autodelete/AutoDeleteBot.py].

    Conventions of the embedding.
    - A [datetime] is an integer number of microseconds since the Unix epoch
      and a [timedelta] an integer number of microseconds, the resolution of
      Python's [datetime] module.  Discord snowflakes, which is what the
      registry stores, count whole milliseconds; the floating point
      arithmetic of [datetime.timestamp()] is taken as exact.
    - SQLite stores signed 64-bit integers: binding a larger Python [int]
      raises [OverflowError].  The ids that Discord issues and the readings
      of the clock fit; a deadline is computed from a duration that the
      operator chose, and its snowflake is checked where it is bound.
    - The SQLite connection is two snapshots of the database: [db], what the
      connection sees (including the statements of the open transaction), and
      [durable], the state of the last commit.  [commit] copies [db] to
      [durable], [rollback] copies [durable] to [db].
    - Calls to Discord are answered by an environment record ([discord]). *)

From stdpp Require Import base gmap list sorting fin_maps.
From Stdlib Require Import ZArith Lia.

Local Open Scope Z_scope.

(** ** Snowflakes ([discord.utils]) *)

(** The two conversions of discord.py that the registry calls.  A snowflake
    carries the whole milliseconds since the Discord epoch above its 22 low
    bits; [DISCORD_EPOCH] is in milliseconds, as in discord.py. *)
Module Snowflake.

Definition DISCORD_EPOCH : Z := 1420070400000.

(** [discord.utils.time_snowflake(dt, high=False)]:
    [int(dt.timestamp() * 1000 - DISCORD_EPOCH) << 22]; [int] truncates
    towards zero. *)
Definition time_snowflake (dt : Z) : Z :=
  Z.shiftl (Z.quot (dt - DISCORD_EPOCH * 1000) 1000) 22.

(** [discord.utils.snowflake_time(id)]: the instant
    [((id >> 22) + DISCORD_EPOCH) / 1000] seconds after the Unix epoch. *)
Definition snowflake_time (id : Z) : Z :=
  (Z.shiftr id 22 + DISCORD_EPOCH) * 1000.

End Snowflake.

Import Snowflake.

(** ** Python results *)

Inductive exn :=
  | AssertionError
  | IntegrityError
  | Forbidden          (* discord.Forbidden, an HTTPException *)
  | NotFound           (* discord.NotFound, an HTTPException *)
  | HTTPException      (* any other discord.HTTPException *)
  | CancelledError
  | OverflowError      (* sqlite3: Python int too large for an INTEGER *)
  | OtherException.    (* an Exception that is not an HTTPException *)

Inductive result (A : Type) :=
  | Return (a : A)
  | Raise (e : exn).
Arguments Return {A} a.
Arguments Raise {A} e.

#[global] Instance exn_eq_dec : EqDecision exn.
Proof. solve_decision. Defined.

(** ** The data model *)

(** [AutoDeleteChannel]; [after] is the id of the [discord.Object]. *)
Record AutoDeleteChannel := {
  id : Z;
  duration : Z;
  after : Z;
}.

(** A row of the table [channels], keyed by [channel_id].  The column
    [duration_seconds] holds [duration.total_seconds()], kept here as the same
    exact time span. *)
Record channel_row := {
  duration_seconds : Z;
  row_after : Z;
}.

(** The two tables.  [messages] has the primary key [(channel_id, message_id)]
    and the value [delete_at], a snowflake. *)
Record database := {
  tbl_channels : gmap Z channel_row;
  tbl_messages : gmap (Z * Z) Z;
}.

(** [discord.Message], as far as the registry reads it. *)
Record Message := {
  msg_channel : Z;
  msg_id : Z;
  msg_created_at : Z;
}.

(** [discord.PartialMessage]: a channel id and a message id. *)
Record PartialMessage := {
  pm_channel : Z;
  pm_id : Z;
}.

#[global] Instance PartialMessage_eq_dec : EqDecision PartialMessage.
Proof. solve_decision. Defined.

(** [PartialMessage.created_at] is computed from the id. *)
Definition created_at (m : PartialMessage) : Z := snowflake_time (pm_id m).

(** [MessageRegistry]: the in-memory mirror [channels] and the connection. *)
Record MessageRegistry := {
  channels : gmap Z AutoDeleteChannel;
  db : database;
  durable : database;
}.

(** ** SQL statements *)

Module SQL.

(** [DELETE FROM channels WHERE channel_id = ?], with the cascade of the
    foreign key of [messages] ([PRAGMA foreign_keys = ON]). *)
Definition delete_channel (c : Z) (d : database) : database :=
  match tbl_channels d !! c with
  | Some _ =>
      {| tbl_channels := delete c (tbl_channels d);
         tbl_messages := filter (λ kv : (Z * Z) * Z, kv.1.1 ≠ c) (tbl_messages d) |}
  | None => d
  end.

(** [INSERT INTO channels ... ON CONFLICT (channel_id) DO UPDATE SET ...] *)
Definition upsert_channel (c : Z) (row : channel_row) (d : database) : database :=
  {| tbl_channels := <[c := row]> (tbl_channels d);
     tbl_messages := tbl_messages d |}.

(** [INSERT INTO messages(channel_id, message_id, delete_at) VALUES (?, ?, ?)]:
    fails on a duplicate primary key and on a channel without a row. *)
Definition insert_message (c m delete_at : Z) (d : database) : option database :=
  match tbl_channels d !! c, tbl_messages d !! (c, m) with
  | Some _, None =>
      Some {| tbl_channels := tbl_channels d;
              tbl_messages := <[(c, m) := delete_at]> (tbl_messages d) |}
  | _, _ => None
  end.

(** The row test of the SELECT of [pop_expired_messages]:
    [INNER JOIN channels ... WHERE ? >= delete_at and message_id > channels.after] *)
Definition expired_row (now : Z) (d : database) (kv : (Z * Z) * Z) : option (Z * Z) :=
  match tbl_channels d !! kv.1.1 with
  | Some row =>
      if bool_decide (kv.2 ≤ now ∧ row_after row < kv.1.2) then Some kv.1 else None
  | None => None
  end.

(** The three orders of the ORDER BY clauses. *)
Definition by_channel_id (x y : Z * Z) : Prop := x.1 ≤ y.1.
Definition by_delete_at (x y : (Z * Z) * Z) : Prop := x.2 ≤ y.2.
Definition by_message_id_desc (x y : Z * Z) : Prop := y.2 ≤ x.2.

#[global] Instance by_channel_id_dec x y : Decision (by_channel_id x y).
Proof. unfold by_channel_id. apply _. Defined.
#[global] Instance by_delete_at_dec x y : Decision (by_delete_at x y).
Proof. unfold by_delete_at. apply _. Defined.
#[global] Instance by_message_id_desc_dec x y : Decision (by_message_id_desc x y).
Proof. unfold by_message_id_desc. apply _. Defined.

(** [SELECT messages.channel_id, message_id ... ORDER BY messages.channel_id];
    SQL leaves the order of the rows of one channel open, here it is the one
    of a stable sort of the table's enumeration. *)
Definition select_expired (now : Z) (d : database) : list (Z * Z) :=
  merge_sort by_channel_id
    (omap (expired_row now d) (map_to_list (tbl_messages d))).

(** [DELETE FROM messages WHERE ? >= delete_at] *)
Definition delete_expired (now : Z) (d : database) : database :=
  {| tbl_channels := tbl_channels d;
     tbl_messages := filter (λ kv : (Z * Z) * Z, ¬ kv.2 ≤ now) (tbl_messages d) |}.

(** [SELECT channel_id, message_id, delete_at FROM messages ORDER BY delete_at LIMIT 1] *)
Definition select_next_expiring (d : database) : option ((Z * Z) * Z) :=
  head (merge_sort by_delete_at (map_to_list (tbl_messages d))).

End SQL.

(** ** MessageRegistry *)

Definition commit (r : MessageRegistry) : MessageRegistry :=
  {| channels := channels r; db := db r; durable := db r |}.

Definition rollback (r : MessageRegistry) : MessageRegistry :=
  {| channels := channels r; db := durable r; durable := durable r |}.

(** [__aexit__]: commit when the block ended normally, roll back otherwise. *)
Definition __aexit__ (raised : bool) (r : MessageRegistry) : MessageRegistry :=
  if raised then rollback r else commit r.

Definition execute (f : database → database) (r : MessageRegistry) : MessageRegistry :=
  {| channels := channels r; db := f (db r); durable := durable r |}.

Definition _row_to_partial_message (row : Z * Z) : PartialMessage :=
  {| pm_channel := row.1; pm_id := row.2 |}.

(** [pop_expired_messages], with the clock reading [utcnow] as an argument. *)
Definition pop_expired_messages (utcnow : Z) (r : MessageRegistry)
    : MessageRegistry * list PartialMessage :=
  let now := time_snowflake utcnow in
  let messages := map _row_to_partial_message (SQL.select_expired now (db r)) in
  (execute (SQL.delete_expired now) r, messages).

Definition get_next_expiring_message (r : MessageRegistry)
    : option (PartialMessage * Z) :=
  match SQL.select_next_expiring (db r) with
  | Some m => Some (_row_to_partial_message m.1, snowflake_time m.2)
  | None => None
  end.

(** The integers that [sqlite3] binds to a statement parameter: the others
    raise [OverflowError] before the statement runs. *)
Definition fits_int64 (x : Z) : bool := bool_decide (- 2 ^ 63 ≤ x < 2 ^ 63).

(** [register_message].  The [INSERT] binds the snowflake of the deadline;
    the addition [message.created_at + channel_config.duration] itself raises
    [OverflowError] beyond the year 9999, far above the range of SQLite. *)
Definition register_message (r : MessageRegistry) (message : Message)
    : MessageRegistry * result (option Z) :=
  match channels r !! msg_channel message with
  | None => (r, Return None)
  | Some channel_config =>
      let delete_at := msg_created_at message + duration channel_config in
      if fits_int64 (time_snowflake delete_at) then
        match SQL.insert_message (msg_channel message) (msg_id message)
                (time_snowflake delete_at) (db r) with
        | Some d => (commit (execute (λ _, d) r), Return (Some delete_at))
        | None => (r, Raise IntegrityError)
        end
      else (r, Raise OverflowError)
  end.

(** The states [register_channel] goes through, one per statement: the
    DELETE, the INSERT, the commit, the assignment to [self.channels]. *)
Definition register_channel_trace (r : MessageRegistry)
    (channel_config : AutoDeleteChannel) : list MessageRegistry :=
  let r1 := execute (SQL.delete_channel (id channel_config)) r in
  let r2 := execute (SQL.upsert_channel (id channel_config)
              {| duration_seconds := duration channel_config;
                 row_after := after channel_config |}) r1 in
  let r3 := commit r2 in
  let r4 := {| channels := <[id channel_config := channel_config]> (channels r3);
               db := db r3; durable := durable r3 |} in
  [r1; r2; r3; r4].

Definition register_channel (r : MessageRegistry)
    (channel_config : AutoDeleteChannel) : MessageRegistry * result unit :=
  if bool_decide (0 < duration channel_config) then
    (default r (last (register_channel_trace r channel_config)), Return tt)
  else (r, Raise AssertionError).

(** The states [deregister_channel] goes through when the channel is in
    [self.channels]: the [del], the DELETE, the commit. *)
Definition deregister_channel_trace (r : MessageRegistry) (channel : Z)
    : list MessageRegistry :=
  let r1 := {| channels := delete channel (channels r);
               db := db r; durable := durable r |} in
  let r2 := execute (SQL.delete_channel channel) r1 in
  let r3 := commit r2 in
  [r1; r2; r3].

Definition deregister_channel (r : MessageRegistry) (channel : Z)
    : MessageRegistry * bool :=
  match channels r !! channel with
  | None => (r, false)
  | Some _ => (default r (last (deregister_channel_trace r channel)), true)
  end.

Definition get_latest_message (r : MessageRegistry) (channel : Z)
    : option PartialMessage :=
  _row_to_partial_message <$>
    head (merge_sort SQL.by_message_id_desc
            (filter (λ k : Z * Z, k.1 = channel) (map_to_list (tbl_messages (db r))).*1)).

(** ** AutoDeleteBot: state *)

(** The task of [asyncio.create_task(asyncio.sleep(seconds))]: the instant at
    which the sleep completes and whether [cancel()] was called on it. *)
Record sleep_task := {
  fires_at : Z;
  cancel_requested : bool;
}.

Definition cancel (t : sleep_task) : sleep_task :=
  {| fires_at := fires_at t; cancel_requested := true |}.

Record AutoDeleteBot := {
  message_registry : MessageRegistry;
  work_pending : bool;
  wake_time : Z;
  active_sleep : option sleep_task;
  protect_pins : bool;
}.

Definition set_message_registry (r : MessageRegistry) (bot : AutoDeleteBot) :=
  {| message_registry := r; work_pending := work_pending bot;
     wake_time := wake_time bot; active_sleep := active_sleep bot;
     protect_pins := protect_pins bot |}.

Definition set_work_pending (b : bool) (bot : AutoDeleteBot) :=
  {| message_registry := message_registry bot; work_pending := b;
     wake_time := wake_time bot; active_sleep := active_sleep bot;
     protect_pins := protect_pins bot |}.

Definition set_wake_time (t : Z) (bot : AutoDeleteBot) :=
  {| message_registry := message_registry bot; work_pending := work_pending bot;
     wake_time := t; active_sleep := active_sleep bot;
     protect_pins := protect_pins bot |}.

Definition set_active_sleep (t : option sleep_task) (bot : AutoDeleteBot) :=
  {| message_registry := message_registry bot; work_pending := work_pending bot;
     wake_time := wake_time bot; active_sleep := t;
     protect_pins := protect_pins bot |}.

(** ** The wake scheduler *)

Definition _shorten_sleep (dt : Z) (bot : AutoDeleteBot) : AutoDeleteBot :=
  if bool_decide (dt < wake_time bot) then
    let bot := set_wake_time dt bot in
    match active_sleep bot with
    | Some task => set_active_sleep (Some (cancel task)) bot
    | None => bot
    end
  else bot.

Definition _register_message_for_deletion (bot : AutoDeleteBot) (message : Message)
    : AutoDeleteBot * result (option Z) :=
  match register_message (message_registry bot) message with
  | (r, Return (Some delete_at)) =>
      let bot := set_work_pending true (set_message_registry r bot) in
      (_shorten_sleep delete_at bot, Return (Some delete_at))
  | (r, res) => (set_message_registry r bot, res)
  end.

(** What can happen while [_sleep_until] awaits its timer: another coroutine
    calls [_shorten_sleep dt], or the task running [_sleep_until] is itself
    cancelled.  Events carry the instant at which they happen. *)
Inductive wait_event :=
  | Shorten (dt : Z)
  | Cancel.

Inductive sleep_outcome :=
  | SleepReturned (at_time : Z) (bot : AutoDeleteBot)
  | SleepRaised (at_time : Z) (e : exn) (bot : AutoDeleteBot).

Definition resolve_time (o : sleep_outcome) : Z :=
  match o with
  | SleepReturned t _ => t
  | SleepRaised t _ _ => t
  end.

Definition outcome_bot (o : sleep_outcome) : AutoDeleteBot :=
  match o with
  | SleepReturned _ bot => bot
  | SleepRaised _ _ bot => bot
  end.

(** The head of the [while True] loop of [_sleep_until] at instant [now]:
    [Some] of the value read into [sleeping_until] and of the task created
    when [seconds > 0], [None] when the loop returns. *)
Definition sleep_loop_head (now : Z) (bot : AutoDeleteBot)
    : option (Z * sleep_task) :=
  let sleeping_until := wake_time bot in
  let seconds := sleeping_until - now in
  if bool_decide (0 < seconds) then
    Some (sleeping_until, {| fires_at := now + seconds; cancel_requested := false |})
  else None.

(** [await self.active_sleep] and what follows it, for the events [evs] in
    the order in which they happen.  The [finally] clause clears
    [active_sleep] on every way out of the [try]. *)
Fixpoint await_active_sleep (sleeping_until : Z) (task : sleep_task)
    (bot : AutoDeleteBot) (evs : list (Z * wait_event)) : sleep_outcome :=
  match evs with
  | [] => SleepReturned (fires_at task) (set_active_sleep None bot)
  | (t, ev) :: evs' =>
      if bool_decide (fires_at task ≤ t) then
        SleepReturned (fires_at task) (set_active_sleep None bot)
      else
        (* the event; [cancelled] tells whether it makes the await raise
           CancelledError *)
        let bot :=
          match ev with
          | Shorten dt => _shorten_sleep dt bot
          | Cancel => bot
          end in
        let cancelled :=
          match ev, active_sleep bot with
          | Cancel, _ => true
          | Shorten _, Some task' => cancel_requested task'
          | Shorten _, None => false
          end in
        if cancelled then
          (* except asyncio.CancelledError *)
          if bool_decide (sleeping_until = wake_time bot) then
            SleepRaised t CancelledError (set_active_sleep None bot)
          else
            let bot := set_active_sleep None bot in
            match sleep_loop_head t bot with
            | Some (sleeping_until', task') =>
                await_active_sleep sleeping_until' task'
                  (set_active_sleep (Some task') bot) evs'
            | None => SleepReturned t bot
            end
        else await_active_sleep sleeping_until task bot evs'
  end.

Definition _sleep_until (now : Z) (evs : list (Z * wait_event))
    (bot : AutoDeleteBot) : sleep_outcome :=
  match sleep_loop_head now bot with
  | Some (sleeping_until, task) =>
      await_active_sleep sleeping_until task (set_active_sleep (Some task) bot) evs
  | None => SleepReturned now bot
  end.

(** [_wait_until_needed], up to the point where it starts waiting: [None]
    when it blocks on [work_pending], otherwise the bot with the new
    [wake_time], on which [_sleep_until] is then run. *)
Definition _wait_until_needed (bot : AutoDeleteBot) : option AutoDeleteBot :=
  match get_next_expiring_message (message_registry bot) with
  | None => None
  | Some (next_message, delete_at) => Some (set_wake_time delete_at bot)
  end.

(** ** The batch deletion executor *)

(** The answers of Discord during one pass.  [get_channel] is the lookup in
    the client's cache ([true]: the channel is there), the other fields are
    the HTTP calls.  The clock does not advance during a pass. *)
Record discord := {
  utcnow : Z;
  get_channel : Z → bool;
  fetch_channel : Z → result unit;
  pins : Z → result (list Z);
  fetch : PartialMessage → result bool;
  delete_message : PartialMessage → result unit;      (* PartialMessage.delete() *)
  delete_messages : Z → list PartialMessage → result unit;
}.

(** [isinstance(e, discord.HTTPException)] *)
Definition is_HTTPException (e : exn) : bool :=
  match e with
  | Forbidden | NotFound | HTTPException => true
  | _ => false
  end.

(** [isinstance(e, Exception)]: [CancelledError] derives from [BaseException]. *)
Definition is_Exception (e : exn) : bool :=
  match e with
  | CancelledError => false
  | _ => true
  end.

(** A deletion call put into [deletions]. *)
Inductive deletion :=
  | SingleDelete (m : PartialMessage)                          (* m.delete() *)
  | BulkDelete (channel : Z) (chunk : list PartialMessage).    (* channel.delete_messages(chunk) *)

Definition run_deletion (env : discord) (d : deletion) : result unit :=
  match d with
  | SingleDelete m => delete_message env m
  | BulkDelete c chunk => delete_messages env c chunk
  end.

Definition fetch_or_deregister_channel (env : discord) (r : MessageRegistry)
    (channel_id : Z) : MessageRegistry * result unit :=
  if get_channel env channel_id then (r, Return tt)
  else
    match fetch_channel env channel_id with
    | Return _ => (r, Return tt)
    | Raise NotFound => ((deregister_channel r channel_id).1, Raise NotFound)
    | Raise e => (r, Raise e)
    end.

(** [is_protected_message]: the value the coroutine gives when it is awaited. *)
Definition is_protected_message (env : discord) (message : PartialMessage)
    : result bool :=
  match fetch env message with
  | Return pinned => Return pinned
  | Raise e => if is_HTTPException e then Return false else Raise e
  end.

(** Calling an [async def] function without [await] gives a coroutine object
    and does not run the body. *)
Inductive coroutine (A : Type) :=
  | Coroutine (awaited : result A).
Arguments Coroutine {A} awaited.

(** The truth value of a coroutine object: it has neither [__bool__] nor
    [__len__]. *)
Definition coroutine_truth {A : Type} (c : coroutine A) : bool := true.

(** [itertools.groupby(messages, lambda m: m.channel)]: runs of consecutive
    messages of one channel. *)
Fixpoint groupby (messages : list PartialMessage) : list (Z * list PartialMessage) :=
  match messages with
  | [] => []
  | m :: messages' =>
      match groupby messages' with
      | (c, g) :: groups =>
          if decide (pm_channel m = c) then (c, m :: g) :: groups
          else (pm_channel m, [m]) :: (c, g) :: groups
      | [] => [(pm_channel m, [m])]
      end
  end.

(** [range(0, stop, step)] *)
Definition range (stop step : nat) : list nat :=
  (λ k, k * step)%nat <$> seq 0 ((stop + step - 1) / step)%nat.

(** [timedelta(days=13.8)] *)
Definition bulk_age_limit : Z := 1192320000000.

(** What one iteration of the loop over the groups leaves behind. *)
Record pass_state := {
  registry : MessageRegistry;
  skipped_count : Z;
  deletions : list deletion;
}.

(** Lines 153 to 167: the pin protection.  [Return None] is the [continue],
    [Return (Some (g, skipped))] the group to go on with. *)
Definition protect_pinned (env : discord) (partial_channel : Z)
    (message_group : list PartialMessage) (skipped : Z)
    : result (option (list PartialMessage * Z)) :=
  let unfiltered_message_count := Z.of_nat (length message_group) in
  let filtered : result (list PartialMessage) :=
    if bool_decide (1 < unfiltered_message_count) then
      match pins env partial_channel with
      | Return channel_pins =>
          Return (filter (λ m, pm_id m ∉ channel_pins) message_group)
      | Raise e => if is_HTTPException e then Return message_group else Raise e
      end
    else
      match message_group with
      | m :: _ =>
          if coroutine_truth (Coroutine (is_protected_message env m))
          then Return [] else Return message_group
      | [] => Return message_group
      end in
  match filtered with
  | Raise e => Raise e
  | Return [] => Return None
  | Return g =>
      Return (Some (g, skipped + (unfiltered_message_count - Z.of_nat (length g))))
  end.

(** Lines 168 to 190: the calls for one group that passed the pin
    protection. *)
Definition route_group (env : discord) (r : MessageRegistry)
    (partial_channel : Z) (message_group : list PartialMessage)
    : MessageRegistry * result (list deletion) :=
  let time_limit := utcnow env - bulk_age_limit in
  let bulk_deletable := filter (λ m, time_limit < created_at m) message_group in
  let non_bulk_deletable := filter (λ m, created_at m ≤ time_limit) message_group in
  let singles := SingleDelete <$> non_bulk_deletable in
  match bulk_deletable with
  | [] => (r, Return singles)
  | [m] => (r, Return (SingleDelete m :: singles))
  | _ =>
      let '(r', channel) :=
        if get_channel env partial_channel then (r, Return tt)
        else fetch_or_deregister_channel env r partial_channel in
      match channel with
      | Return _ =>
          (r', Return
            (((λ start, BulkDelete partial_channel
                          (take 100 (drop start bulk_deletable)))
                <$> range (length bulk_deletable) 100) ++ singles))
      | Raise e => if is_HTTPException e then (r', Return []) else (r', Raise e)
      end
  end.

(** The body of the loop over [messages_by_channel]; the second component
    is the exception that leaves the loop, if any. *)
Definition process_group (env : discord) (protect : bool) (st : pass_state)
    (group : Z * list PartialMessage) : pass_state * option exn :=
  let '(partial_channel, message_group) := group in
  let guarded :=
    if protect then protect_pinned env partial_channel message_group (skipped_count st)
    else Return (Some (message_group, skipped_count st)) in
  match guarded with
  | Raise e => (st, Some e)
  | Return None => (st, None)
  | Return (Some (message_group, skipped)) =>
      match route_group env (registry st) partial_channel message_group with
      | (r, Return calls) =>
          ({| registry := r; skipped_count := skipped;
              deletions := deletions st ++ calls |}, None)
      | (r, Raise e) =>
          ({| registry := r; skipped_count := skipped;
              deletions := deletions st |}, Some e)
      end
  end.

Fixpoint process_groups (env : discord) (protect : bool) (st : pass_state)
    (groups : list (Z * list PartialMessage)) : pass_state * option exn :=
  match groups with
  | [] => (st, None)
  | g :: groups' =>
      match process_group env protect st g with
      | (st', None) => process_groups env protect st' groups'
      | (st', Some e) => (st', Some e)
      end
  end.

(** The loop over [zip(messages, results)]: the number of failures, or the
    result that is raised. *)
Fixpoint check_results (pairs : list (PartialMessage * result unit))
    (failure_count : Z) : result Z :=
  match pairs with
  | [] => Return failure_count
  | (message, Return _) :: pairs' => check_results pairs' failure_count
  | (message, Raise e) :: pairs' =>
      if is_Exception e then
        match e with
        | Forbidden | NotFound => check_results pairs' (failure_count + 1)
        | _ => Raise e
        end
      else check_results pairs' failure_count
  end.

(** What a pass did: the bot it leaves, the batch it popped, the calls that
    were awaited, and [(attempt_count, failure_count)] or the exception that
    ended the pass. *)
Record pass_report := {
  bot_after : AutoDeleteBot;
  popped : list PartialMessage;
  issued : list deletion;
  verdict : result (Z * Z);
}.

(** [clear_expired_messages].  The calls in [deletions] are coroutines that
    only run in [asyncio.gather]: a pass that leaves the loop over the groups
    by an exception issues none of them. *)
Definition clear_expired_messages (env : discord) (bot : AutoDeleteBot)
    : pass_report :=
  let bot := set_work_pending false bot in
  let '(r, messages) := pop_expired_messages (utcnow env) (message_registry bot) in
  let '(st, raised) :=
    process_groups env (protect_pins bot)
      {| registry := r; skipped_count := 0; deletions := [] |}
      (groupby messages) in
  match raised with
  | Some e =>
      {| bot_after := set_message_registry (__aexit__ true (registry st)) bot;
         popped := messages; issued := []; verdict := Raise e |}
  | None =>
      let attempt_count := Z.of_nat (length messages) - skipped_count st in
      let results := run_deletion env <$> deletions st in
      match check_results (zip messages results) 0 with
      | Return failure_count =>
          {| bot_after := set_message_registry (__aexit__ false (registry st)) bot;
             popped := messages; issued := deletions st;
             verdict := Return (attempt_count, failure_count) |}
      | Raise e =>
          {| bot_after := set_message_registry (__aexit__ true (registry st)) bot;
             popped := messages; issued := deletions st; verdict := Raise e |}
      end
  end.

(** * Notions used in the statements *)

(** The whole milliseconds between the Discord epoch and an instant, which
    is what a snowflake keeps of it. *)
Definition milliseconds (dt : Z) : Z := Z.quot (dt - DISCORD_EPOCH * 1000) 1000.

(** ** Consistency of a registry *)

(** The foreign key of [messages]: every message belongs to a channel that
    has a row. *)
Definition fk_ok (d : database) : Prop :=
  ∀ c m t, tbl_messages d !! (c, m) = Some t → is_Some (tbl_channels d !! c).

(** Every channel of the mirror has a row. *)
Definition mirror_in (r : MessageRegistry) (d : database) : Prop :=
  ∀ c, is_Some (channels r !! c) → is_Some (tbl_channels d !! c).

Record registry_ok (r : MessageRegistry) : Prop := {
  ok_fk_db : fk_ok (db r);
  ok_fk_durable : fk_ok (durable r);
  ok_mirror_db : mirror_in r (db r);
  ok_mirror_durable : mirror_in r (durable r);
}.

Definition empty_database : database :=
  {| tbl_channels := ∅; tbl_messages := ∅ |}.

(** The registry [MessageRegistry.open] gives on a new database file. *)
Definition empty_registry : MessageRegistry :=
  {| channels := ∅; db := empty_database; durable := empty_database |}.

(** ** The order of the durable write and of the mirror update *)

(** In a trace of states that starts from [r], every state whose mirror
    differs from the mirror of [r] already has the durable state the trace
    ends with: the mirror changes only after the commit. *)
Definition mirror_follows_commit (r : MessageRegistry)
    (trace : list MessageRegistry) : Prop :=
  ∀ s, s ∈ trace → channels s ≠ channels r →
       durable s = durable (default r (last trace)).

(** ** Waits *)

(** The events of a wait happen in order, none before [now]. *)
Fixpoint chronological (now : Z) (evs : list (Z * wait_event)) : Prop :=
  match evs with
  | [] => True
  | (t, _) :: evs' => now ≤ t ∧ chronological t evs'
  end.

(** The calls of [_shorten_sleep] made while the monitor waits. *)
Definition shorten_all (dts : list Z) (bot : AutoDeleteBot) : AutoDeleteBot :=
  foldl (λ bot dt, _shorten_sleep dt bot) bot dts.

(** ** The calls of a group *)

(** The targets of the single deletions and the chunks of the bulk
    deletions among some calls, in order. *)
Definition single_targets (calls : list deletion) : list PartialMessage :=
  omap (λ d, match d with SingleDelete m => Some m | BulkDelete _ _ => None end) calls.

Definition bulk_chunks (calls : list deletion) : list (list PartialMessage) :=
  omap (λ d, match d with BulkDelete _ chunk => Some chunk | SingleDelete _ => None end) calls.

Definition bulk_channels (calls : list deletion) : list Z :=
  omap (λ d, match d with BulkDelete c _ => Some c | SingleDelete _ => None end) calls.

(** The slices [l[start:start + k]] for [start] in [range(0, len(l), k)]. *)
Definition slices {A : Type} (k : nat) (l : list A) : list (list A) :=
  (λ start, take k (drop start l)) <$> range (length l) k.

(** The first [q] slices of length [k]. *)
Definition slices_upto {A : Type} (k q : nat) (l : list A) : list (list A) :=
  (λ start, take k (drop start l)) <$> ((λ i, i * k)%nat <$> seq 0 q).

(** The two sides of the age partition of a group at the clock of [env]. *)
Definition bulk_eligible (env : discord) (message_group : list PartialMessage) :=
  filter (λ m, utcnow env - bulk_age_limit < created_at m) message_group.

Definition single_only (env : discord) (message_group : list PartialMessage) :=
  filter (λ m, created_at m ≤ utcnow env - bulk_age_limit) message_group.

(** The calls C7 asks for, for a group of one channel: one single deletion
    for every message at or beyond the age limit; for the bulk-eligible
    messages one single deletion and no bulk call when there is exactly one,
    and otherwise bulk calls on the channel, whose chunks are the
    bulk-eligible messages cut, in order, into pieces of 100 with a shorter
    last piece. *)
Definition routed_as_specified (env : discord) (partial_channel : Z)
    (message_group : list PartialMessage) (calls : list deletion) : Prop :=
  let young := bulk_eligible env message_group in
  let old := single_only env message_group in
  single_targets calls = (if decide (length young = 1%nat) then young else []) ++ old ∧
  concat (bulk_chunks calls) = (if decide (length young = 1%nat) then [] else young) ∧
  length (bulk_chunks calls)
    = (if decide (length young = 1%nat) then 0 else (length young + 99) / 100)%nat ∧
  (∀ i chunk, bulk_chunks calls !! i = Some chunk →
     length chunk = ((length young - i * 100) `min` 100)%nat ∧
     (1 ≤ length chunk ≤ 100)%nat) ∧
  (∀ c, c ∈ bulk_channels calls → c = partial_channel) ∧
  (length young = 250%nat → length <$> bulk_chunks calls = [100; 100; 50]%nat).

(** The channel object is at hand: in the cache, or fetched. *)
Definition channel_resolves (env : discord) (channel_id : Z) : Prop :=
  get_channel env channel_id = true ∨ fetch_channel env channel_id = Return tt.

(** A result of a deletion call that ends the pass: an exception other than
    [Forbidden] and [NotFound]. *)
Definition fatal_result (res : result unit) : Prop :=
  match res with
  | Return _ => False
  | Raise e => is_Exception e = true ∧ e ≠ Forbidden ∧ e ≠ NotFound
  end.

(** No fetch of a channel that is missing from the cache answers
    [NotFound]: the pass deregisters no channel. *)
Definition no_deregistration (env : discord) : Prop :=
  ∀ c, get_channel env c = false → fetch_channel env c ≠ Raise NotFound.

(** ** Scenarios *)

Module Scenario.

(** A pass at [clock]; the channels 1 and 2 keep messages for ten minutes. *)
Definition clock : Z := 1700001000000000.

Definition channel_1 : AutoDeleteChannel :=
  {| id := 1; duration := 600000000; after := 100 |}.
Definition channel_2 : AutoDeleteChannel :=
  {| id := 2; duration := 600000000; after := 100 |}.

Definition message (channel created k : Z) : Message :=
  {| msg_channel := channel; msg_id := time_snowflake created + k;
     msg_created_at := created |}.

Definition partial (m : Message) : PartialMessage :=
  {| pm_channel := msg_channel m; pm_id := msg_id m |}.

(** Three messages posted a quarter of an hour before [clock], and one that
    is fifteen days old. *)
Definition a1 := message 1 1700000000000000 1.
Definition a2 := message 1 1700000000000000 2.
Definition b1 := message 2 1700000000000000 3.
Definition a_old := message 1 (clock - 1296000000000) 4.

Definition register_all (ms : list Message) (r : MessageRegistry) : MessageRegistry :=
  foldl (λ r m, (register_message r m).1) r ms.

Definition two_channels : MessageRegistry :=
  (register_channel (register_channel empty_registry channel_1).1 channel_2).1.

Definition bot_of (protect : bool) (r : MessageRegistry) : AutoDeleteBot :=
  {| message_registry := r; work_pending := true; wake_time := clock;
     active_sleep := None; protect_pins := protect |}.

(** Discord answers every call. *)
Definition healthy : discord :=
  {| utcnow := clock;
     get_channel := λ _, true;
     fetch_channel := λ _, Return tt;
     pins := λ _, Return [];
     fetch := λ _, Return false;
     delete_message := λ _, Return tt;
     delete_messages := λ _ _, Return tt |}.

(** The channel 1 is neither in the cache nor on Discord any more, and the
    deletion of a message of the channel 2 fails with a server error. *)
Definition channel_gone : discord :=
  {| utcnow := clock;
     get_channel := λ _, false;
     fetch_channel := λ c, if decide (c = 1) then Raise NotFound else Return tt;
     pins := λ _, Return [];
     fetch := λ _, Return false;
     delete_message := λ m, if decide (pm_channel m = 2) then Raise HTTPException else Return tt;
     delete_messages := λ _ _, Return tt |}.

(** Every channel is in the cache, and the deletion of a message of the
    channel 2 fails with a server error. *)
Definition server_error : discord :=
  {| utcnow := clock;
     get_channel := λ _, true;
     fetch_channel := λ _, Return tt;
     pins := λ _, Return [];
     fetch := λ _, Return false;
     delete_message := λ m, if decide (pm_channel m = 2) then Raise HTTPException else Return tt;
     delete_messages := λ _ _, Return tt |}.

(** The channel objects cannot be fetched. *)
Definition unreachable : discord :=
  {| utcnow := clock;
     get_channel := λ _, false;
     fetch_channel := λ _, Raise HTTPException;
     pins := λ _, Return [];
     fetch := λ _, Return false;
     delete_message := λ _, Return tt;
     delete_messages := λ _ _, Return tt |}.

(** A bot in the middle of a wait that ends one second after [clock]. *)
Definition sleeping_bot : AutoDeleteBot :=
  set_active_sleep (Some {| fires_at := clock + 1000; cancel_requested := false |})
    (set_wake_time (clock + 1000) (bot_of false two_channels)).

End Scenario.

Import Scenario.

(** * The rest of the registry and of the bot *)

(** ** Opening a registry *)

(** The [AutoDeleteChannel] that [_init_channels] builds from a row. *)
Definition channel_of_row (channel_id : Z) (row : channel_row) : AutoDeleteChannel :=
  {| id := channel_id; duration := duration_seconds row; after := row_after row |}.

(** [_init_channels]: every row of [channels] is assigned into the mirror. *)
Definition _init_channels (r : MessageRegistry) : MessageRegistry :=
  {| channels :=
       map_imap (λ c row, Some (channel_of_row c row)) (tbl_channels (db r))
         ∪ channels r;
     db := db r; durable := durable r |}.

(** [MessageRegistry.open] on a database file whose content is [file]:
    the mirror starts empty, [_init_db] creates the tables only where they
    do not exist, and [_init_channels] loads the rows. *)
Definition open (file : database) : MessageRegistry :=
  _init_channels {| channels := ∅; db := file; durable := file |}.

(** ** Sequences of calls on a registry *)

Inductive registry_call :=
  | RegisterChannel (channel_config : AutoDeleteChannel)
  | DeregisterChannel (channel : Z)
  | RegisterMessage (message : Message)
  | PopExpired (utcnow : Z)
  | Commit
  | Rollback.

Definition run_call (r : MessageRegistry) (call : registry_call) : MessageRegistry :=
  match call with
  | RegisterChannel channel_config => (register_channel r channel_config).1
  | DeregisterChannel channel => (deregister_channel r channel).1
  | RegisterMessage message => (register_message r message).1
  | PopExpired utcnow => (pop_expired_messages utcnow r).1
  | Commit => commit r
  | Rollback => rollback r
  end.

Definition run_calls (r : MessageRegistry) (calls : list registry_call) : MessageRegistry :=
  foldl run_call r calls.

(** Between calls the mirror is the table [channels], as [_init_channels]
    would load it, and the table is the same in the open transaction and in
    the durable state. *)
Definition mirror_synced (r : MessageRegistry) : Prop :=
  channels r = map_imap (λ c row, Some (channel_of_row c row)) (tbl_channels (db r)) ∧
  tbl_channels (db r) = tbl_channels (durable r).

(** ** Scanning *)

(** The exceptions of a scan: the two it raises itself, and those of the
    calls it makes. *)
Inductive scan_exn :=
  | ValueError
  | RuntimeError
  | Propagated (e : exn).

Inductive scan_result (A : Type) :=
  | ScanReturn (a : A)
  | ScanRaise (e : scan_exn).
Arguments ScanReturn {A} a.
Arguments ScanRaise {A} e.

(** The id of the [after] that [scan_channel] passes to [channel.history]:
    the cutoff of the config, or the latest queued message when the scan
    resumes and that message was created after the cutoff. *)
Definition scan_after (r : MessageRegistry) (channel_config : AutoDeleteChannel)
    (channel : Z) (from_beginning : bool) : Z :=
  if from_beginning then after channel_config
  else
    match get_latest_message r channel with
    | Some latest_message =>
        if bool_decide (snowflake_time (after channel_config) < created_at latest_message)
        then pm_id latest_message
        else after channel_config
    | None => after channel_config
    end.

(** The loop of [scan_channel] over the messages of the history. *)
Fixpoint register_history (bot : AutoDeleteBot) (messages : list Message)
    (found_count : Z) : AutoDeleteBot * result Z :=
  match messages with
  | [] => (bot, Return found_count)
  | message :: messages' =>
      match _register_message_for_deletion bot message with
      | (bot', Return delete_at) =>
          register_history bot' messages'
            (found_count + match delete_at with Some _ => 1 | None => 0 end)
      | (bot', Raise e) => (bot', Raise e)
      end
  end.

(** [scan_channel]; [history channel after] is what
    [channel.history(limit=None, after=after, oldest_first=True)] yields.
    The result is [found_count]. *)
Definition scan_channel (history : Z → Z → list Message) (bot : AutoDeleteBot)
    (channel : Z) (from_beginning : bool) : AutoDeleteBot * scan_result Z :=
  match channels (message_registry bot) !! channel with
  | None => (bot, ScanRaise ValueError)
  | Some channel_config =>
      let after :=
        scan_after (message_registry bot) channel_config channel from_beginning in
      match register_history bot (history channel after) 0 with
      | (bot', Return found_count) => (bot', ScanReturn found_count)
      | (bot', Raise e) => (bot', ScanRaise (Propagated e))
      end
  end.

(** Lines 112 to 117 of [scan_all_channels]: the loop that collects the
    channels, over the keys of the mirror in the order [keys] of the
    dictionary.  A dictionary iterator raises [RuntimeError] on its next
    step when the size of the dictionary is no longer the one it started
    with ([used]). *)
Fixpoint collect_channels (env : discord) (used : nat) (r : MessageRegistry)
    (keys : list Z) (found : list Z) : MessageRegistry * scan_result (list Z) :=
  if bool_decide (size (channels r) ≠ used) then (r, ScanRaise RuntimeError)
  else
    match keys with
    | [] => (r, ScanReturn found)
    | channel_id :: keys' =>
        if get_channel env channel_id then
          collect_channels env used r keys' (found ++ [channel_id])
        else
          match fetch_or_deregister_channel env r channel_id with
          | (r', Return _) => collect_channels env used r' keys' (found ++ [channel_id])
          | (r', Raise NotFound) => collect_channels env used r' keys' found
          | (r', Raise e) => (r', ScanRaise (Propagated e))
          end
    end.

Definition scan_all_channels_collect (env : discord) (r : MessageRegistry)
    (keys : list Z) : MessageRegistry * scan_result (list Z) :=
  collect_channels env (size (channels r)) r keys [].

(** ** The messages that calls are about *)

Definition targets (calls : list deletion) : list PartialMessage :=
  calls ≫= λ d, match d with
                | SingleDelete m => [m]
                | BulkDelete _ chunk => chunk
                end.

(** ** More scenarios *)

Module Scenario2.

(** A third message of the channel 1. *)
Definition a3 := message 1 1700000000000000 5.

(** Discord answers every call, and the first message of the channel 1 is
    pinned. *)
Definition pinned_a1 : discord :=
  {| utcnow := clock;
     get_channel := λ _, true;
     fetch_channel := λ _, Return tt;
     pins := λ c, if decide (c = 1) then Return [msg_id a1] else Return [];
     fetch := λ m, Return (bool_decide (pm_id m = msg_id a1));
     delete_message := λ _, Return tt;
     delete_messages := λ _ _, Return tt |}.

(** The history of the channel 1 holds two messages. *)
Definition history_1 (channel after : Z) : list Message :=
  if decide (channel = 1) then filter (λ m, after < msg_id m) [a1; a2] else [].

(** The confirmation of the command that enabled the channel 1: its id is
    the cutoff. *)
Definition confirmation : Message :=
  {| msg_channel := 1; msg_id := 100; msg_created_at := 1700000000000000 |}.

End Scenario2.

Import Scenario2.

(** * Deadlines, the cycle of the monitor and arrivals during a pass *)

(** ** The deadline of a message, as the specification has it *)


(** ** The cycle of [monitor_expired_messages] *)

(** The bot after each of the first calls of [_shorten_sleep] made during a
    wait, from none of them to all of them. *)
Definition shortened_states (dts : list Z) (bot : AutoDeleteBot)
    : list AutoDeleteBot :=
  (λ k, shorten_all (take k dts) bot) <$> seq 0 (S (length dts)).

(** The bot between two passes: as the pass left it, then as
    [_wait_until_needed] set it, which assigns [wake_time] unless the queue
    is empty, then after each call of [_shorten_sleep] made during the wait. *)
Definition states_between_passes (dts : list Z) (bot : AutoDeleteBot)
    : list AutoDeleteBot :=
  bot :: shortened_states dts (default bot (_wait_until_needed bot)).

Definition wake_time_only_decreases (states : list AutoDeleteBot) : Prop :=
  ∀ i j b b',
    (i ≤ j)%nat → states !! i = Some b → states !! j = Some b' →
    wake_time b' ≤ wake_time b.

(** ** Messages that arrive during a pass *)

(** The listener of [on_message] is [_register_message_for_deletion]; what
    it raises is raised in the task of the event, not in the pass. *)
Definition on_message (bot : AutoDeleteBot) (message : Message) : AutoDeleteBot :=
  (_register_message_for_deletion bot message).1.

(** [clear_expired_messages] with the messages that arrive while the pass
    awaits [asyncio.gather]: the listener runs on the registry of the pass,
    inside its [async with] block, before the results are examined. *)
Definition clear_expired_messages_during (arrivals : list Message)
    (env : discord) (bot : AutoDeleteBot) : pass_report :=
  let bot := set_work_pending false bot in
  let '(r, messages) := pop_expired_messages (utcnow env) (message_registry bot) in
  let '(st, raised) :=
    process_groups env (protect_pins bot)
      {| registry := r; skipped_count := 0; deletions := [] |}
      (groupby messages) in
  match raised with
  | Some e =>
      {| bot_after := set_message_registry (__aexit__ true (registry st)) bot;
         popped := messages; issued := []; verdict := Raise e |}
  | None =>
      let attempt_count := Z.of_nat (length messages) - skipped_count st in
      let results := run_deletion env <$> deletions st in
      let bot := foldl on_message (set_message_registry (registry st) bot) arrivals in
      match check_results (zip messages results) 0 with
      | Return failure_count =>
          {| bot_after :=
               set_message_registry (__aexit__ false (message_registry bot)) bot;
             popped := messages; issued := deletions st;
             verdict := Return (attempt_count, failure_count) |}
      | Raise e =>
          {| bot_after :=
               set_message_registry (__aexit__ true (message_registry bot)) bot;
             popped := messages; issued := deletions st; verdict := Raise e |}
      end
  end.


(** ** Scenarios with other durations *)

Module Scenario3.

(** The channel 3 keeps messages for 1.0005 seconds, the channel 4 for 4000
    weeks. *)
Definition channel_3 : AutoDeleteChannel :=
  {| id := 3; duration := 1000500; after := 100 |}.
Definition channel_4 : AutoDeleteChannel :=
  {| id := 4; duration := 2419200000000000; after := 100 |}.

Definition other_channels : MessageRegistry :=
  (register_channel (register_channel empty_registry channel_3).1 channel_4).1.

Definition d1 := message 4 1700000000000000 7.


(** The bot after a pass that followed a wait until [1700000000000000],
    with a message pending whose deadline is ten minutes later. *)
Definition rested_bot : AutoDeleteBot :=
  {| message_registry := register_all [a1] two_channels; work_pending := false;
     wake_time := 1700000000000000; active_sleep := None; protect_pins := false |}.

End Scenario3.

Import Scenario3.

(** * Properties *)

(** ** Snowflakes *)

Section snowflake_facts.

Lemma time_snowflake_milliseconds dt :
  time_snowflake dt = Z.shiftl (milliseconds dt) 22.
Proof. reflexivity. Qed.


Lemma time_snowflake_le a b :
  time_snowflake a ≤ time_snowflake b ↔ milliseconds a ≤ milliseconds b.
Proof.
  rewrite !time_snowflake_milliseconds, !Z.shiftl_mul_pow2 by lia.
  assert (0 < 2 ^ 22) by lia. nia.
Qed.

Lemma milliseconds_mono a b : a ≤ b → milliseconds a ≤ milliseconds b.
Proof. intros H. unfold milliseconds. apply Z.quot_le_mono; lia. Qed.

Lemma time_snowflake_mono a b : a ≤ b → time_snowflake a ≤ time_snowflake b.
Proof. intros H. by apply time_snowflake_le, milliseconds_mono. Qed.




End snowflake_facts.

(** ** The SQL statements *)

Section sql_facts.
Implicit Types (d : database) (c m now : Z).

Lemma expired_row_Some now d kv k :
  SQL.expired_row now d kv = Some k ↔
  k = kv.1 ∧ ∃ row, tbl_channels d !! kv.1.1 = Some row ∧
                    kv.2 ≤ now ∧ row_after row < kv.1.2.
Proof.
  unfold SQL.expired_row. destruct (tbl_channels d !! kv.1.1) as [row|].
  - case_bool_decide; split.
    + intros [= <-]. eauto.
    + intros [-> _]. done.
    + done.
    + intros [_ (row' & [= <-] & ?)]. tauto.
  - split; [done|]. intros [_ (? & ? & _)]. done.
Qed.

Lemma select_expired_elem_of now d c m :
  (c, m) ∈ SQL.select_expired now d ↔
  ∃ delete_at row,
    tbl_messages d !! (c, m) = Some delete_at ∧
    tbl_channels d !! c = Some row ∧
    delete_at ≤ now ∧ row_after row < m.
Proof.
  unfold SQL.select_expired. rewrite merge_sort_Permutation, list_elem_of_omap.
  split.
  - intros ([[c' m'] t] & Hin & Hrow).
    apply elem_of_map_to_list in Hin. apply expired_row_Some in Hrow.
    destruct Hrow as [[= -> ->] (row & ? & ? & ?)]. eauto 10.
  - intros (t & row & Hm & Hc & ? & ?). exists ((c, m), t). split.
    + by apply elem_of_map_to_list.
    + apply expired_row_Some. eauto 10.
Qed.

Lemma omap_expired_row_sublist now d (l : list ((Z * Z) * Z)) :
  omap (SQL.expired_row now d) l `sublist_of` l.*1.
Proof.
  induction l as [|kv l IH]; simpl; [constructor|].
  destruct (SQL.expired_row now d kv) as [k|] eqn:E.
  - apply expired_row_Some in E as [-> _]. by constructor.
  - by constructor.
Qed.

Lemma select_expired_NoDup now d : NoDup (SQL.select_expired now d).
Proof.
  unfold SQL.select_expired. rewrite merge_sort_Permutation.
  eapply sublist_NoDup; [|apply omap_expired_row_sublist].
  apply NoDup_fst_map_to_list.
Qed.

Lemma select_expired_sorted now d :
  Sorted SQL.by_channel_id (SQL.select_expired now d).
Proof.
  apply Sorted_merge_sort. intros x y. unfold SQL.by_channel_id. lia.
Qed.

Lemma delete_expired_lookup now d c m t :
  tbl_messages (SQL.delete_expired now d) !! (c, m) = Some t ↔
  tbl_messages d !! (c, m) = Some t ∧ ¬ t ≤ now.
Proof. simpl. by rewrite map_lookup_filter_Some. Qed.

Lemma delete_channel_channels c d :
  tbl_channels (SQL.delete_channel c d) = delete c (tbl_channels d).
Proof.
  unfold SQL.delete_channel. destruct (tbl_channels d !! c) eqn:E; [done|].
  by rewrite delete_id.
Qed.

Lemma delete_channel_lookup c d c' m t :
  tbl_messages (SQL.delete_channel c d) !! (c', m) = Some t →
  tbl_messages d !! (c', m) = Some t.
Proof.
  unfold SQL.delete_channel. destruct (tbl_channels d !! c); [|done].
  simpl. rewrite map_lookup_filter_Some. tauto.
Qed.

Lemma delete_channel_lookup_ne c d c' m :
  c' ≠ c →
  tbl_messages (SQL.delete_channel c d) !! (c', m) = tbl_messages d !! (c', m).
Proof.
  intros Hne. unfold SQL.delete_channel. destruct (tbl_channels d !! c); [|done].
  simpl. apply option_eq. intros t. rewrite map_lookup_filter_Some.
  simpl. split; [tauto|]. by intros Hm.
Qed.

(** The cascade: once the row of a channel is deleted, no message of the
    channel is left. *)
Lemma delete_channel_cascade c d m :
  is_Some (tbl_channels d !! c) →
  tbl_messages (SQL.delete_channel c d) !! (c, m) = None.
Proof.
  intros [row Hrow]. unfold SQL.delete_channel. rewrite Hrow. simpl.
  apply map_lookup_filter_None. right. intros t _. simpl. tauto.
Qed.

End sql_facts.

Section registry_facts.
Implicit Types (r : MessageRegistry) (d : database) (c m : Z).

Lemma fk_ok_delete_channel c d : fk_ok d → fk_ok (SQL.delete_channel c d).
Proof.
  intros Hd c' m t Hm. rewrite delete_channel_channels.
  destruct (decide (c' = c)) as [->|Hne].
  - destruct (tbl_channels d !! c) as [row|] eqn:E.
    + rewrite delete_channel_cascade in Hm by (rewrite E; eauto). done.
    + apply delete_channel_lookup, Hd in Hm. rewrite E in Hm. by destruct Hm.
  - rewrite lookup_delete_ne by done. eapply Hd, delete_channel_lookup, Hm.
Qed.

Lemma fk_ok_upsert_channel c row d : fk_ok d → fk_ok (SQL.upsert_channel c row d).
Proof.
  intros Hd c' m t Hm. simpl in *. apply Hd in Hm.
  destruct (decide (c = c')) as [->|Hne].
  - rewrite lookup_insert_eq. eauto.
  - by rewrite lookup_insert_ne.
Qed.

Lemma fk_ok_insert_message c m t d d' :
  SQL.insert_message c m t d = Some d' → fk_ok d → fk_ok d'.
Proof.
  unfold SQL.insert_message. intros Hi Hd.
  destruct (tbl_channels d !! c) as [row|] eqn:Ec; [|done].
  destruct (tbl_messages d !! (c, m)) eqn:Em; [done|].
  injection Hi as <-. intros c' m' t' Hm. simpl in *.
  destruct (decide ((c, m) = (c', m'))) as [[= <- <-]|Hne].
  - rewrite Ec. eauto.
  - rewrite lookup_insert_ne in Hm by done. eapply Hd, Hm.
Qed.

Lemma fk_ok_delete_expired now d : fk_ok d → fk_ok (SQL.delete_expired now d).
Proof.
  intros Hd c m t Hm. apply delete_expired_lookup in Hm as [Hm _].
  simpl. eapply Hd, Hm.
Qed.

Lemma registry_ok_empty : registry_ok empty_registry.
Proof.
  split; intros c; simpl.
  - intros m t. by rewrite lookup_empty.
  - intros m t. by rewrite lookup_empty.
  - rewrite lookup_empty. by intros [? ?].
  - rewrite lookup_empty. by intros [? ?].
Qed.

Lemma registry_ok_commit r : registry_ok r → registry_ok (commit r).
Proof. intros [? ? ? ?]. by split. Qed.

Lemma registry_ok_rollback r : registry_ok r → registry_ok (rollback r).
Proof. intros [? ? ? ?]. by split. Qed.

Lemma registry_ok_pop now r :
  registry_ok r → registry_ok (pop_expired_messages now r).1.
Proof.
  intros [? ? ? ?]. split; simpl; try done. by apply fk_ok_delete_expired.
Qed.

Lemma registry_ok_register_message r message :
  registry_ok r → registry_ok (register_message r message).1.
Proof.
  intros Hr. unfold register_message.
  destruct (channels r !! msg_channel message) as [cfg|]; [|done].
  destruct (fits_int64 _); [|done].
  destruct (SQL.insert_message _ _ _ _) as [d|] eqn:Hi; [|done].
  destruct Hr as [Hdb Hdur Hmdb Hmdur]. simpl.
  assert (tbl_channels d = tbl_channels (db r)) as Hch.
  { unfold SQL.insert_message in Hi.
    destruct (tbl_channels (db r) !! _); [|done].
    destruct (tbl_messages (db r) !! _); [done|]. by injection Hi as <-. }
  pose proof (fk_ok_insert_message _ _ _ _ _ Hi Hdb).
  split; simpl; try done; intros c Hc; rewrite Hch; by apply Hmdb.
Qed.

Lemma register_channel_last r cfg :
  last (register_channel_trace r cfg) =
  Some {| channels := <[id cfg := cfg]> (channels r);
          db := SQL.upsert_channel (id cfg)
                  {| duration_seconds := duration cfg; row_after := after cfg |}
                  (SQL.delete_channel (id cfg) (db r));
          durable := SQL.upsert_channel (id cfg)
                  {| duration_seconds := duration cfg; row_after := after cfg |}
                  (SQL.delete_channel (id cfg) (db r)) |}.
Proof. reflexivity. Qed.

Lemma deregister_channel_last r c :
  last (deregister_channel_trace r c) =
  Some {| channels := delete c (channels r);
          db := SQL.delete_channel c (db r);
          durable := SQL.delete_channel c (db r) |}.
Proof. reflexivity. Qed.

Lemma registry_ok_register_channel r cfg :
  registry_ok r → registry_ok (register_channel r cfg).1.
Proof.
  intros Hr. unfold register_channel. case_bool_decide; [|done].
  rewrite register_channel_last. simpl. destruct Hr as [Hdb _ Hmdb _].
  assert (fk_ok (SQL.upsert_channel (id cfg)
                  {| duration_seconds := duration cfg; row_after := after cfg |}
                  (SQL.delete_channel (id cfg) (db r)))) as Hfk
    by by apply fk_ok_upsert_channel, fk_ok_delete_channel.
  assert (∀ c, is_Some (<[id cfg := cfg]> (channels r) !! c) →
               is_Some (<[id cfg := {| duration_seconds := duration cfg;
                                       row_after := after cfg |}]>
                          (tbl_channels (SQL.delete_channel (id cfg) (db r))) !! c))
    as Hm.
  { intros c. rewrite delete_channel_channels.
    destruct (decide (id cfg = c)) as [->|Hne].
    - rewrite !lookup_insert_eq. eauto.
    - rewrite !lookup_insert_ne, lookup_delete_ne by done. apply Hmdb. }
  by split.
Qed.

Lemma registry_ok_deregister_channel r c :
  registry_ok r → registry_ok (deregister_channel r c).1.
Proof.
  intros Hr. unfold deregister_channel.
  destruct (channels r !! c) as [cfg|] eqn:E; [|done].
  rewrite deregister_channel_last. simpl. destruct Hr as [Hdb _ Hmdb _].
  assert (∀ c', is_Some (delete c (channels r) !! c') →
                is_Some (tbl_channels (SQL.delete_channel c (db r)) !! c')) as Hm.
  { intros c'. rewrite delete_channel_channels.
    destruct (decide (c = c')) as [->|Hne].
    - rewrite lookup_delete_eq. by intros [? ?].
    - rewrite !lookup_delete_ne by done. apply Hmdb. }
  split; simpl; try done; by apply fk_ok_delete_channel.
Qed.

(** No message of a channel without a row is ever popped. *)
Lemma pop_no_row now r c m :
  tbl_channels (db r) !! c = None →
  {| pm_channel := c; pm_id := m |} ∉ (pop_expired_messages now r).2.
Proof.
  intros Hc Hin. simpl in Hin. apply list_elem_of_fmap in Hin as ([c' m'] & [= -> ->] & Hin).
  apply select_expired_elem_of in Hin as (t & row & _ & Hrow & _). congruence.
Qed.

Lemma pop_elem_of now r c m :
  {| pm_channel := c; pm_id := m |} ∈ (pop_expired_messages now r).2 ↔
  ∃ delete_at row,
    tbl_messages (db r) !! (c, m) = Some delete_at ∧
    tbl_channels (db r) !! c = Some row ∧
    delete_at ≤ time_snowflake now ∧ row_after row < m.
Proof.
  simpl. rewrite <- select_expired_elem_of, list_elem_of_fmap. split.
  - by intros ([c' m'] & [= -> ->] & Hin).
  - intros Hin. by exists (c, m).
Qed.

Lemma _row_to_partial_message_inj : Inj (=) (=) _row_to_partial_message.
Proof. intros [c m] [c' m'] [= -> ->]. done. Qed.

Lemma pop_NoDup now r : NoDup (pop_expired_messages now r).2.
Proof.
  simpl. apply NoDup_fmap_2; [apply _row_to_partial_message_inj|].
  apply select_expired_NoDup.
Qed.

End registry_facts.

(** ** The expiration registry *)

(** C3. [pop_expired_messages] returns exactly the pending entries whose
    [delete_at] is at most [now] and whose message id is above the [after]
    of their channel's row, each once; it then deletes every pending entry
    whose [delete_at] is at most [now], whatever the cutoff, in the open
    transaction only: the durable state is untouched until the commit, and a
    rollback brings the entries back.  An expired entry at or below the
    cutoff is therefore not in the batch and yet gone from the queue. *)
Theorem pop_expired_messages_spec (utcnow : Z) (r : MessageRegistry) :
  let r' := (pop_expired_messages utcnow r).1 in
  let batch := (pop_expired_messages utcnow r).2 in
  let now := time_snowflake utcnow in
  NoDup batch ∧
  (∀ c m, {| pm_channel := c; pm_id := m |} ∈ batch ↔
     ∃ delete_at row,
       tbl_messages (db r) !! (c, m) = Some delete_at ∧
       tbl_channels (db r) !! c = Some row ∧
       delete_at ≤ now ∧ row_after row < m) ∧
  (∀ c m delete_at,
     (tbl_messages (db r') !! (c, m) = Some delete_at) ↔
     (tbl_messages (db r) !! (c, m) = Some delete_at ∧ ¬ (delete_at ≤ now))) ∧
  (∀ c m delete_at row,
     tbl_messages (db r) !! (c, m) = Some delete_at →
     tbl_channels (db r) !! c = Some row →
     delete_at ≤ now → m ≤ row_after row →
     ({| pm_channel := c; pm_id := m |} ∉ batch) ∧
     tbl_messages (db r') !! (c, m) = None) ∧
  tbl_channels (db r') = tbl_channels (db r) ∧
  channels r' = channels r ∧
  durable r' = durable r ∧
  durable (commit r') = db r' ∧
  db (rollback r') = durable r.
Proof.
  intros r' batch now. split; [apply pop_NoDup|].
  split; [intros c m; apply pop_elem_of|].
  split; [intros c m t; apply delete_expired_lookup|].
  split; [|done].
  intros c m t row Hm Hrow Hexp Hcut. split.
  - intros Hin. apply pop_elem_of in Hin as (t' & row' & _ & Hrow' & _ & Hlt).
    rewrite Hrow in Hrow'. injection Hrow' as <-. lia.
  - destruct (tbl_messages (db r') !! (c, m)) as [t'|] eqn:E; [|done].
    apply delete_expired_lookup in E as [E Hn]. rewrite Hm in E.
    injection E as <-. done.
Qed.


Arguments pop_expired_messages : simpl never.

Lemma deregister_channel_None (r : MessageRegistry) (channel : Z) :
  channels r !! channel = None → deregister_channel r channel = (r, false).
Proof. intros E. unfold deregister_channel. by rewrite E. Qed.

Lemma deregister_channel_Some (r : MessageRegistry) (channel : Z) :
  is_Some (channels r !! channel) →
  deregister_channel r channel =
    ({| channels := delete channel (channels r);
        db := SQL.delete_channel channel (db r);
        durable := SQL.delete_channel channel (db r) |}, true).
Proof. intros [cfg E]. unfold deregister_channel. by rewrite E. Qed.

(** C8. [deregister_channel] returns [True] exactly when the channel is in
    the mirror, and leaves the registry as it is otherwise.  On a configured
    channel it removes the channel from the mirror and, durably, its row and
    by the cascade every pending entry of the channel, so that nothing of
    the channel is popped afterwards; a second call returns [False]. *)
Theorem deregister_channel_spec (r : MessageRegistry) (channel : Z) :
  registry_ok r →
  (deregister_channel r channel).2 = bool_decide (is_Some (channels r !! channel)) ∧
  (channels r !! channel = None → deregister_channel r channel = (r, false)) ∧
  (is_Some (channels r !! channel) →
   ∃ r',
     deregister_channel r channel = (r', true) ∧
     deregister_channel r' channel = (r', false) ∧
     channels r' !! channel = None ∧
     tbl_channels (db r') !! channel = None ∧
     durable r' = db r' ∧
     (∀ m, tbl_messages (db r') !! (channel, m) = None) ∧
     (∀ now m, {| pm_channel := channel; pm_id := m |}
                 ∉ (pop_expired_messages now r').2)).
Proof.
  intros Hr. destruct (channels r !! channel) as [cfg|] eqn:E.
  - assert (is_Some (channels r !! channel)) as Hc by (rewrite E; eauto).
    rewrite (deregister_channel_Some _ _ Hc).
    split; [by rewrite bool_decide_eq_true_2|]. split; [done|]. intros _.
    eexists. split; [reflexivity|].
    assert (is_Some (tbl_channels (db r) !! channel)) as Hrow
      by by apply (ok_mirror_db _ Hr).
    assert (tbl_channels (SQL.delete_channel channel (db r)) !! channel = None) as Hgone
      by (by rewrite delete_channel_channels, lookup_delete_eq).
    split; [|split; [|split; [|split; [|split]]]].
    + apply deregister_channel_None. simpl. apply lookup_delete_eq.
    + simpl. apply lookup_delete_eq.
    + done.
    + done.
    + intros m. simpl. by apply delete_channel_cascade.
    + intros now m. by apply pop_no_row.
  - rewrite (deregister_channel_None _ _ E). split; [|split; [done|]].
    + rewrite bool_decide_eq_false_2; [done|]. by intros [? ?].
    + by intros [? ?].
Qed.

(** C9. [register_channel] on a channel that has a row deletes the row
    before it inserts the new one, and the cascade of that DELETE removes
    every pending entry of the channel: after the call the queue of the
    channel is empty, durably, whatever the ids of the entries and the new
    [after], and nothing of the channel is popped.  The entries of other
    channels are left as they are. *)
Theorem register_channel_empties_queue (r : MessageRegistry)
    (channel_config : AutoDeleteChannel) :
  0 < duration channel_config →
  is_Some (tbl_channels (db r) !! id channel_config) →
  ∃ r',
    register_channel r channel_config = (r', Return tt) ∧
    register_channel_trace r channel_config !! 0%nat
      = Some (execute (SQL.delete_channel (id channel_config)) r) ∧
    channels r' !! id channel_config = Some channel_config ∧
    tbl_channels (db r') !! id channel_config
      = Some {| duration_seconds := duration channel_config;
                row_after := after channel_config |} ∧
    durable r' = db r' ∧
    (∀ m, tbl_messages (db r') !! (id channel_config, m) = None) ∧
    (∀ now m, {| pm_channel := id channel_config; pm_id := m |}
                ∉ (pop_expired_messages now r').2) ∧
    (∀ c m, c ≠ id channel_config →
            tbl_messages (db r') !! (c, m) = tbl_messages (db r) !! (c, m)).
Proof.
  intros Hd Hrow. unfold register_channel. rewrite bool_decide_eq_true_2 by done.
  rewrite register_channel_last. eexists. split; [reflexivity|].
  split; [reflexivity|].
  split; [apply lookup_insert_eq|]. split; [apply lookup_insert_eq|].
  split; [done|].
  assert (∀ m, tbl_messages (SQL.delete_channel (id channel_config) (db r))
                 !! (id channel_config, m) = None) as Hempty
    by (intros m; by apply delete_channel_cascade).
  split; [done|]. split.
  - intros now m Hin. apply pop_elem_of in Hin as (t & row & Hm & _).
    simpl in Hm. by rewrite Hempty in Hm.
  - intros c m Hne. by apply delete_channel_lookup_ne.
Qed.

(** The same for every consistent registry, whether or not the channel had
    a row. *)
Lemma register_channel_queue_empty (r : MessageRegistry) (cfg : AutoDeleteChannel) m :
  registry_ok r → 0 < duration cfg →
  tbl_messages (db (register_channel r cfg).1) !! (id cfg, m) = None.
Proof.
  intros Hr Hd. unfold register_channel. rewrite bool_decide_eq_true_2 by done.
  rewrite register_channel_last. simpl.
  destruct (tbl_channels (db r) !! id cfg) as [row|] eqn:E.
  - apply delete_channel_cascade. rewrite E. eauto.
  - destruct (tbl_messages _ !! _) as [t|] eqn:Em; [|done].
    apply delete_channel_lookup, (ok_fk_db _ Hr) in Em. rewrite E in Em.
    by destruct Em.
Qed.

(** ** The order of the durable write and of the mirror update *)

(** C5, amended. [register_channel] changes the mirror only after its
    durable write is committed.  [deregister_channel] does it the other way
    round: its first step removes the channel from the mirror, with the
    database untouched, and the DELETE and the commit follow.  In both, in
    every state every channel of the mirror has a row in the durable
    state. *)
Theorem mirror_update_order (r : MessageRegistry)
    (channel_config : AutoDeleteChannel) (channel : Z) :
  registry_ok r →
  mirror_follows_commit r (register_channel_trace r channel_config) ∧
  (∃ r1 rest,
     deregister_channel_trace r channel = r1 :: rest ∧
     channels r1 = delete channel (channels r) ∧
     db r1 = db r ∧ durable r1 = durable r ∧
     (∀ s, s ∈ rest → channels s = channels r1) ∧
     durable (default r (last (deregister_channel_trace r channel)))
       = SQL.delete_channel channel (db r)) ∧
  (∀ s, s ∈ register_channel_trace r channel_config
              ++ deregister_channel_trace r channel →
        mirror_in s (durable s)).
Proof.
  intros Hr. split; [|split].
  - intros s Hs Hne. rewrite register_channel_last. simpl.
    unfold register_channel_trace in Hs.
    rewrite !elem_of_cons, elem_of_nil in Hs.
    destruct Hs as [->|[->|[->|[->|[]]]]]; simpl in *; done.
  - eexists _, _. split; [reflexivity|]. simpl. split; [done|].
    split; [done|]. split; [done|]. split; [|done].
    intros s. rewrite !elem_of_cons, elem_of_nil.
    intros [->|[->|[]]]; done.
  - destruct Hr as [Hdb Hdur Hmdb Hmdur]. intros s Hs.
    apply elem_of_app in Hs.
    unfold register_channel_trace, deregister_channel_trace in Hs.
    rewrite !elem_of_cons, !elem_of_nil in Hs.
    destruct Hs as [[->|[->|[->|[->|[]]]]]|[->|[->|[->|[]]]]];
      intros c; simpl; try apply Hmdur.
    + rewrite delete_channel_channels. intros Hc.
      destruct (decide (id channel_config = c)) as [->|Hne].
      * rewrite lookup_insert_eq. eauto.
      * rewrite lookup_insert_ne, lookup_delete_ne by done. by apply Hmdb.
    + rewrite delete_channel_channels.
      destruct (decide (id channel_config = c)) as [->|Hne].
      * rewrite !lookup_insert_eq. eauto.
      * rewrite !lookup_insert_ne, lookup_delete_ne by done. by apply Hmdb.
    + destruct (decide (channel = c)) as [->|Hne].
      * rewrite lookup_delete_eq. by intros [? ?].
      * rewrite lookup_delete_ne by done. apply Hmdur.
    + destruct (decide (channel = c)) as [->|Hne].
      * rewrite lookup_delete_eq. by intros [? ?].
      * rewrite lookup_delete_ne by done. apply Hmdur.
    + rewrite delete_channel_channels.
      destruct (decide (channel = c)) as [->|Hne].
      * rewrite lookup_delete_eq. by intros [? ?].
      * rewrite !lookup_delete_ne by done. apply Hmdb.
Qed.

(** ** The wake scheduler *)

Section scheduler_facts.
Implicit Types (bot : AutoDeleteBot) (dt now : Z).

Lemma shorten_sleep_later bot dt : wake_time bot ≤ dt → _shorten_sleep dt bot = bot.
Proof. intros H. unfold _shorten_sleep. rewrite bool_decide_eq_false_2; [done|lia]. Qed.

Lemma shorten_sleep_earlier bot dt :
  dt < wake_time bot →
  _shorten_sleep dt bot =
    set_active_sleep (cancel <$> active_sleep bot) (set_wake_time dt bot).
Proof.
  intros H. unfold _shorten_sleep. rewrite bool_decide_eq_true_2 by done.
  simpl. destruct bot as [? ? ? [task|] ?]; done.
Qed.

Lemma shorten_sleep_wake_time bot dt :
  wake_time (_shorten_sleep dt bot) = Z.min dt (wake_time bot).
Proof.
  destruct (decide (dt < wake_time bot)).
  - rewrite shorten_sleep_earlier by done. simpl. lia.
  - rewrite shorten_sleep_later by lia. lia.
Qed.

Lemma shorten_all_wake_time dts bot :
  wake_time (shorten_all dts bot) ≤ wake_time bot.
Proof.
  revert bot. induction dts as [|dt dts IH]; intros bot; simpl; [lia|].
  etrans; [apply IH|]. rewrite shorten_sleep_wake_time. lia.
Qed.

Lemma shorten_all_app dts later bot :
  shorten_all (dts ++ later) bot = shorten_all later (shorten_all dts bot).
Proof. apply foldl_app. Qed.

(** A wait in progress on a timer set for [wake_time] ends at or before
    that instant, and not before the wait began. *)
Lemma await_active_sleep_bound evs : ∀ now bot task,
  active_sleep bot = Some task →
  fires_at task = wake_time bot →
  cancel_requested task = false →
  now ≤ wake_time bot →
  chronological now evs →
  now ≤ resolve_time (await_active_sleep (wake_time bot) task bot evs) ≤ wake_time bot.
Proof.
  induction evs as [|[t ev] evs IH]; intros now bot task Hact Hfire Hnc Hnow Hchr;
    simpl.
  { lia. }
  destruct Hchr as [Hle Hchr]. case_bool_decide as Ht; simpl; [lia|].
  destruct ev as [dt|].
  - destruct (decide (dt < wake_time bot)) as [Hdt|Hdt].
    + rewrite shorten_sleep_earlier by done. simpl. rewrite Hact. simpl.
      rewrite bool_decide_eq_false_2 by lia.
      unfold sleep_loop_head. simpl. case_bool_decide as Hs; simpl; [|lia].
      match goal with |- context [await_active_sleep _ ?tk ?b evs] =>
        specialize (IH t b tk) end.
      simpl in IH. replace (t + (dt - t)) with dt in * by lia.
      specialize (IH eq_refl eq_refl eq_refl ltac:(lia) Hchr). lia.
    + rewrite shorten_sleep_later by lia. rewrite Hact, Hnc.
      specialize (IH t bot task Hact Hfire Hnc ltac:(lia) Hchr). lia.
  - rewrite bool_decide_eq_true_2 by done. simpl. lia.
Qed.

Lemma sleep_until_bound now evs bot :
  chronological now evs →
  now ≤ resolve_time (_sleep_until now evs bot) ≤ Z.max now (wake_time bot).
Proof.
  intros Hchr. unfold _sleep_until, sleep_loop_head.
  case_bool_decide as Hs; simpl; [|lia].
  match goal with |- context [await_active_sleep _ ?tk ?b evs] =>
    pose proof (await_active_sleep_bound evs now b tk) as IH end.
  simpl in IH. replace (now + (wake_time bot - now)) with (wake_time bot) in * by lia.
  specialize (IH eq_refl eq_refl eq_refl ltac:(lia) Hchr). lia.
Qed.

End scheduler_facts.

(** ** Outcomes of a wait *)

Section wait_facts.
Implicit Types (bot : AutoDeleteBot) (now : Z).

Lemma await_active_sleep_outcome evs : ∀ now bot task,
  active_sleep bot = Some task →
  fires_at task = wake_time bot →
  cancel_requested task = false →
  now ≤ wake_time bot →
  chronological now evs →
  let o := await_active_sleep (wake_time bot) task bot evs in
  active_sleep (outcome_bot o) = None ∧
  wake_time (outcome_bot o) ≤ wake_time bot ∧
  message_registry (outcome_bot o) = message_registry bot ∧
  work_pending (outcome_bot o) = work_pending bot ∧
  match o with
  | SleepReturned t b => wake_time b ≤ t
  | SleepRaised t e b => e = CancelledError ∧ (t, Cancel) ∈ evs
  end.
Proof.
  induction evs as [|[t ev] evs IH]; intros now bot task Hact Hfire Hnc Hnow Hchr;
    simpl.
  { repeat split; try done; simpl; lia. }
  destruct Hchr as [Hle Hchr]. case_bool_decide as Ht; simpl.
  { repeat split; try done; simpl; lia. }
  destruct ev as [dt|].
  - destruct (decide (dt < wake_time bot)) as [Hdt|Hdt].
    + rewrite shorten_sleep_earlier by done. simpl. rewrite Hact. simpl.
      rewrite bool_decide_eq_false_2 by lia.
      unfold sleep_loop_head. simpl. case_bool_decide as Hs; simpl.
      * match goal with |- context [await_active_sleep _ ?tk ?b evs] =>
          specialize (IH t b tk) end.
        simpl in IH. replace (t + (dt - t)) with dt in * by lia.
        specialize (IH eq_refl eq_refl eq_refl ltac:(lia) Hchr).
        destruct IH as (H1 & H2 & H3 & H4 & H5).
        split; [done|]. split; [lia|]. split; [done|]. split; [done|].
        destruct (await_active_sleep dt _ _ evs); [done|].
        destruct H5 as [-> H5]. split; [done|]. by right.
      * repeat split; try done; lia.
    + rewrite shorten_sleep_later by lia. rewrite Hact, Hnc.
      specialize (IH t bot task Hact Hfire Hnc ltac:(lia) Hchr).
      destruct IH as (H1 & H2 & H3 & H4 & H5).
      split; [done|]. split; [done|]. split; [done|]. split; [done|].
      destruct (await_active_sleep (wake_time bot) task bot evs); [done|].
      destruct H5 as [-> H5]. split; [done|]. by right.
  - rewrite bool_decide_eq_true_2 by done. simpl.
    repeat split; try done. left.
Qed.

Lemma set_active_sleep_None bot :
  active_sleep bot = None → set_active_sleep None bot = bot.
Proof. destruct bot. simpl. by intros ->. Qed.

Lemma sleep_until_outcome now evs bot :
  active_sleep bot = None →
  chronological now evs →
  match _sleep_until now evs bot with
  | SleepReturned t b => wake_time b ≤ t
  | SleepRaised t e b => e = CancelledError ∧ (t, Cancel) ∈ evs
  end ∧
  wake_time (outcome_bot (_sleep_until now evs bot)) ≤ wake_time bot ∧
  (evs = [] → _sleep_until now evs bot = SleepReturned (Z.max now (wake_time bot)) bot).
Proof.
  intros Hnone Hchr. unfold _sleep_until, sleep_loop_head.
  case_bool_decide as Hs.
  - match goal with |- context [await_active_sleep _ ?tk ?b evs] =>
      pose proof (await_active_sleep_outcome evs now b tk) as H end.
    simpl in H. replace (now + (wake_time bot - now)) with (wake_time bot) in * by lia.
    specialize (H eq_refl eq_refl eq_refl ltac:(lia) Hchr).
    destruct H as (H1 & H2 & H3 & H4 & H5).
    split; [done|]. split; [done|].
    intros ->. simpl. rewrite Z.max_r by lia. f_equal.
    destruct bot. simpl in *. by subst.
  - simpl. split; [lia|]. split; [lia|]. intros _. f_equal. lia.
Qed.

End wait_facts.

Lemma shortened_states_decrease dts bot :
  wake_time_only_decreases (shortened_states dts bot).
Proof.
  intros i j b b' Hij Hi Hj. unfold shortened_states in Hi, Hj.
  rewrite list_lookup_fmap in Hi, Hj.
  apply fmap_Some in Hi as (k & Hk & ->). apply lookup_seq in Hk as [-> _].
  apply fmap_Some in Hj as (k & Hk & ->). apply lookup_seq in Hk as [-> _].
  simpl. rewrite <- (take_drop i (take j dts)), take_take, Nat.min_l by done.
  rewrite shorten_all_app. apply shorten_all_wake_time.
Qed.

(** C10. A call of [_shorten_sleep] with a deadline that is not earlier than
    [wake_time] leaves the bot as it is: [wake_time] is unchanged and the
    active sleep is not cancelled.  Whatever the deadlines, the calls made
    during a wait never increase [wake_time]: from the state that
    [_wait_until_needed] has set to the next pass, [wake_time] only
    decreases. *)
Theorem shorten_sleep_never_delays (bot : AutoDeleteBot) (dt : Z)
    (dts later : list Z) :
  wake_time bot ≤ dt →
  _shorten_sleep dt bot = bot ∧
  wake_time (_shorten_sleep dt bot) = wake_time bot ∧
  active_sleep (_shorten_sleep dt bot) = active_sleep bot ∧
  wake_time (shorten_all dts bot) ≤ wake_time bot ∧
  wake_time (shorten_all (dts ++ later) bot) ≤ wake_time (shorten_all dts bot) ∧
  wake_time_only_decreases (shortened_states dts bot) ∧
  wake_time_only_decreases (tail (states_between_passes dts bot)).
Proof.
  intros H. rewrite shorten_sleep_later by done.
  split; [done|]. split; [done|]. split; [done|].
  split; [apply shorten_all_wake_time|].
  split; [rewrite shorten_all_app; apply shorten_all_wake_time|].
  split; apply shortened_states_decrease.
Qed.

(** C6. Let a wait be in progress on a timer set for [wake_time = t1], and
    let a message with the deadline [t0 < t1] be registered at the instant
    [tau].  [_shorten_sleep] sets [wake_time] to [t0] and cancels the active
    sleep; the loop of [_sleep_until], which reads a [wake_time] that has
    changed, starts over at [tau] with the new value: when [tau < t0] it
    sleeps again, on a new timer set for [t0], and when [t0] has passed it
    returns at once.  The wait ends no later than [max tau t0], hence at or
    before [t0] when the message is registered before its deadline, and in
    any case before [t1]; it does not return before the [wake_time] it ends
    with, and left alone it returns at [t0] exactly.  A cancellation that
    leaves [wake_time] as it was is raised again, and nothing else is
    raised. *)
Theorem early_wake (bot : AutoDeleteBot) (task : sleep_task) (t1 t0 tau : Z)
    (evs : list (Z * wait_event)) :
  wake_time bot = t1 →
  active_sleep bot = Some task →
  fires_at task = t1 →
  cancel_requested task = false →
  t0 < t1 →
  tau < t1 →
  chronological tau evs →
  let bot' := _shorten_sleep t0 bot in
  let o := await_active_sleep t1 task bot ((tau, Shorten t0) :: evs) in
  let timer := {| fires_at := t0; cancel_requested := false |} in
  (∀ message r,
     register_message (message_registry bot) message = (r, Return (Some t0)) →
     wake_time (_register_message_for_deletion bot message).1 = t0 ∧
     active_sleep (_register_message_for_deletion bot message).1
       = Some (cancel task)) ∧
  wake_time bot' = t0 ∧
  active_sleep bot' = Some (cancel task) ∧
  o = _sleep_until tau evs (set_active_sleep None bot') ∧
  resolve_time o ≤ Z.max tau t0 ∧
  (tau ≤ t0 → resolve_time o ≤ t0) ∧
  resolve_time o < t1 ∧
  await_active_sleep t1 task bot ((tau, Cancel) :: evs)
    = SleepRaised tau CancelledError (set_active_sleep None bot) ∧
  (tau < t0 →
   o = await_active_sleep t0 timer
         (set_active_sleep (Some timer) (set_wake_time t0 bot)) evs) ∧
  (t0 ≤ tau →
   o = SleepReturned tau (set_active_sleep None (set_wake_time t0 bot))) ∧
  (evs = [] →
   o = SleepReturned (Z.max tau t0) (set_active_sleep None (set_wake_time t0 bot))) ∧
  tau ≤ resolve_time o ∧
  wake_time (outcome_bot o) ≤ t0 ∧
  match o with
  | SleepReturned t b => wake_time b ≤ t
  | SleepRaised t e b => e = CancelledError ∧ (t, Cancel) ∈ evs
  end.
Proof.
  intros Hw Hact Hfire Hnc Ht0 Htau Hchr bot' o timer.
  assert (bot' = set_active_sleep (Some (cancel task)) (set_wake_time t0 bot)) as Hbot'.
  { unfold bot'. rewrite shorten_sleep_earlier by lia. by rewrite Hact. }
  assert (set_active_sleep None bot' = set_active_sleep None (set_wake_time t0 bot))
    as Hcleared by (by rewrite Hbot').
  assert (o = _sleep_until tau evs (set_active_sleep None bot')) as Ho.
  { unfold o. simpl. rewrite bool_decide_eq_false_2 by lia.
    fold bot'. rewrite Hbot'. simpl. rewrite bool_decide_eq_false_2 by lia.
    unfold _sleep_until. simpl. by destruct (sleep_loop_head _ _) as [[? ?]|]. }
  assert (resolve_time o ≤ Z.max tau t0) as Hres.
  { rewrite Ho. etrans; [apply sleep_until_bound, Hchr|].
    rewrite Hbot'. simpl. lia. }
  destruct (sleep_until_outcome tau evs (set_active_sleep None bot') eq_refl Hchr)
    as (Hout & Hwake & Hnil).
  pose proof (sleep_until_bound tau evs (set_active_sleep None bot') Hchr) as [Hlow Hup].
  rewrite <- Ho in Hout, Hwake, Hnil, Hlow, Hup.
  split; [|split; [|split; [|split; [|split; [|split; [|split; [|split;
    [|split; [|split; [|split; [|split; [|split]]]]]]]]]]]].
  - intros message r Hreg. unfold _register_message_for_deletion. rewrite Hreg.
    simpl. rewrite shorten_sleep_earlier by (simpl; lia). simpl.
    by rewrite Hact.
  - by rewrite Hbot'.
  - by rewrite Hbot'.
  - exact Ho.
  - exact Hres.
  - lia.
  - lia.
  - simpl. rewrite bool_decide_eq_false_2 by lia.
    by rewrite bool_decide_eq_true_2.
  - intros Hlt. rewrite Ho, Hcleared. unfold _sleep_until, sleep_loop_head.
    cbn [wake_time set_active_sleep set_wake_time].
    rewrite bool_decide_eq_true_2 by lia.
    replace (tau + (t0 - tau)) with t0 by lia. reflexivity.
  - intros Hge. rewrite Ho, Hcleared. unfold _sleep_until, sleep_loop_head.
    cbn [wake_time set_active_sleep set_wake_time].
    by rewrite bool_decide_eq_false_2 by lia.
  - intros Hevs. rewrite (Hnil Hevs), Hcleared. reflexivity.
  - exact Hlow.
  - rewrite Hbot' in Hwake. exact Hwake.
  - exact Hout.
Qed.

(** ** The batch deletion executor: routing *)

Section slices_facts.
Context {A : Type}.
Implicit Types (l : list A) (k q : nat).

Lemma slices_upto_S k q l :
  slices_upto k (S q) l = take k l :: slices_upto k q (drop k l).
Proof.
  unfold slices_upto. rewrite <- cons_seq, <- fmap_S_seq. simpl.
  f_equal. rewrite <- !list_fmap_compose. apply list_fmap_ext.
  intros _ i _. simpl. rewrite drop_drop. f_equal. 
Qed.

Lemma slices_upto_concat k q l :
  (length l ≤ q * k)%nat → concat (slices_upto k q l) = l.
Proof.
  revert l. induction q as [|q IH]; intros l Hl.
  - destruct l; [done|simpl in Hl; lia].
  - rewrite slices_upto_S. simpl. rewrite IH.
    + apply take_drop.
    + rewrite length_drop. lia.
Qed.

Lemma slices_upto_lookup k q l i chunk :
  slices_upto k q l !! i = Some chunk →
  chunk = take k (drop (i * k) l) ∧ (i < q)%nat.
Proof.
  unfold slices_upto. rewrite <- list_fmap_compose, list_lookup_fmap.
  intros H. apply fmap_Some in H as (j & Hj & ->).
  apply lookup_seq in Hj as [-> ?]. done.
Qed.

Lemma slices_upto_length k q l : length (slices_upto k q l) = q.
Proof. unfold slices_upto. by rewrite !length_fmap, length_seq. Qed.

End slices_facts.

(** Division by the chunk size, in the form [lia] takes. *)
Ltac div_100 n :=
  pose proof (Nat.div_mod_eq n 100);
  pose proof (Nat.mod_upper_bound n 100 ltac:(lia)).

Lemma range_100_covers (n : nat) : (n ≤ (n + 100 - 1) / 100 * 100)%nat.
Proof. div_100 (n + 100 - 1)%nat. lia. Qed.

Lemma slices_concat {A : Type} (l : list A) : concat (slices 100 l) = l.
Proof. apply (slices_upto_concat 100), range_100_covers. Qed.

Lemma slices_length {A : Type} (l : list A) :
  length (slices 100 l) = ((length l + 99) / 100)%nat.
Proof.
  unfold slices, range. rewrite !length_fmap, length_seq.
  f_equal. lia.
Qed.

Lemma slices_lookup {A : Type} (l : list A) i chunk :
  slices 100 l !! i = Some chunk →
  length chunk = ((length l - i * 100) `min` 100)%nat ∧
  (1 ≤ length chunk ≤ 100)%nat.
Proof.
  intros H. apply (slices_upto_lookup 100) in H as [-> Hi].
  rewrite length_take, length_drop.
  assert (i < (length l + 100 - 1) / 100)%nat as Hi' by exact Hi.
  div_100 (length l + 100 - 1)%nat. lia.
Qed.

Lemma slices_250 {A : Type} (l : list A) :
  length l = 250%nat → length <$> slices 100 l = [100; 100; 50]%nat.
Proof.
  intros H. unfold slices, range. rewrite H. simpl.
  rewrite !length_take, !length_drop, H. reflexivity.
Qed.

Lemma single_targets_app calls calls' :
  single_targets (calls ++ calls') = single_targets calls ++ single_targets calls'.
Proof. apply omap_app. Qed.

Lemma bulk_chunks_app calls calls' :
  bulk_chunks (calls ++ calls') = bulk_chunks calls ++ bulk_chunks calls'.
Proof. apply omap_app. Qed.

Lemma bulk_channels_app calls calls' :
  bulk_channels (calls ++ calls') = bulk_channels calls ++ bulk_channels calls'.
Proof. apply omap_app. Qed.

Lemma single_targets_singles (l : list PartialMessage) :
  single_targets (SingleDelete <$> l) = l.
Proof. induction l; simpl; by f_equal. Qed.

Lemma bulk_chunks_singles (l : list PartialMessage) :
  bulk_chunks (SingleDelete <$> l) = [].
Proof. induction l; simpl; by f_equal. Qed.

Lemma bulk_channels_singles (l : list PartialMessage) :
  bulk_channels (SingleDelete <$> l) = [].
Proof. induction l; simpl; by f_equal. Qed.

Lemma single_targets_bulk {B : Type} c (f : B → list PartialMessage) (l : list B) :
  single_targets ((λ x, BulkDelete c (f x)) <$> l) = [].
Proof. induction l; simpl; by f_equal. Qed.

Lemma bulk_chunks_bulk {B : Type} c (f : B → list PartialMessage) (l : list B) :
  bulk_chunks ((λ x, BulkDelete c (f x)) <$> l) = f <$> l.
Proof. induction l; simpl; by f_equal. Qed.

Lemma bulk_channels_bulk {B : Type} c (f : B → list PartialMessage) (l : list B) :
  bulk_channels ((λ x, BulkDelete c (f x)) <$> l) = (λ _, c) <$> l.
Proof. induction l; simpl; by f_equal. Qed.

Lemma route_group_resolved env r c g :
  ((1 < length (bulk_eligible env g))%nat → channel_resolves env c) →
  ∃ calls, route_group env r c g = (r, Return calls) ∧
           routed_as_specified env c g calls.
Proof.
  intros Hres. unfold route_group, routed_as_specified.
  fold (bulk_eligible env g). fold (single_only env g).
  destruct (bulk_eligible env g) as [|m1 [|m2 young]] eqn:Ey.
  - eexists. split; [reflexivity|]. simpl.
    rewrite single_targets_singles, bulk_chunks_singles, bulk_channels_singles.
    repeat split; try done. intros c' Hc'. by apply elem_of_nil in Hc'.
  - eexists. split; [reflexivity|]. simpl.
    rewrite single_targets_singles, bulk_chunks_singles, bulk_channels_singles.
    repeat split; try done. intros c' Hc'. by apply elem_of_nil in Hc'.
  - assert ((if get_channel env c then (r, Return tt)
             else fetch_or_deregister_channel env r c) = (r, Return tt)) as ->.
    { destruct Hres as [Hres|Hres]; [simpl; lia| |].
      - by rewrite Hres.
      - unfold fetch_or_deregister_channel. rewrite Hres.
        by destruct (get_channel env c). }
    eexists. split; [reflexivity|].
    rewrite single_targets_app, bulk_chunks_app, bulk_channels_app.
    rewrite single_targets_singles, bulk_chunks_singles, bulk_channels_singles.
    rewrite single_targets_bulk, bulk_chunks_bulk, bulk_channels_bulk.
    rewrite !app_nil_r. fold (slices 100 (m1 :: m2 :: young)).
    rewrite decide_False by (simpl; lia).
    split; [done|]. split; [apply slices_concat|].
    split; [apply slices_length|]. split; [apply slices_lookup|]. split.
    + intros c' Hc'. apply list_elem_of_fmap in Hc' as (? & -> & _). done.
    + apply slices_250.
Qed.

(** ** The batch deletion executor: the claims *)

(** C7, amended.  When the channel object is at hand whenever the group has
    two or more bulk-eligible messages, [route_group] leaves the registry as
    it is and issues the calls of [routed_as_specified]: a single deletion
    for every message at or beyond the age limit, whatever the size of the
    group; for exactly one bulk-eligible message a single deletion and no
    bulk call; for more, one bulk call per chunk of at most 100, and so for
    250 of them three bulk calls of 100, 100 and 50 messages. *)
Theorem route_group_spec (env : discord) (r : MessageRegistry)
    (partial_channel : Z) (message_group : list PartialMessage) :
  ((1 < length (bulk_eligible env message_group))%nat →
   channel_resolves env partial_channel) →
  ∃ calls,
    route_group env r partial_channel message_group = (r, Return calls) ∧
    routed_as_specified env partial_channel message_group calls.
Proof. apply route_group_resolved. Qed.

Lemma route_group_spec_witness :
  ∃ calls,
    route_group healthy empty_registry 1 [partial a1; partial a2; partial a_old]
      = (empty_registry, Return calls) ∧
    routed_as_specified healthy 1 [partial a1; partial a2; partial a_old] calls.
Proof. apply route_group_spec. intros _. by left. Defined.

(** C7 as it is stated fails when the channel object cannot be fetched: the
    group is skipped, and the message beyond the age limit gets no call. *)
Lemma route_group_unreachable_channel :
  ¬ ∃ calls,
      (route_group unreachable empty_registry 1
         [partial a1; partial a2; partial a_old]).2 = Return calls ∧
      routed_as_specified unreachable 1 [partial a1; partial a2; partial a_old] calls.
Proof.
  intros (calls & Hcalls & Hsingle & _).
  vm_compute in Hcalls. injection Hcalls as <-.
  vm_compute in Hsingle. discriminate Hsingle.
Qed.

(** With the pin protection on, a group of one message never reaches the
    routing: the test at line 163 is made on the coroutine object, which is
    true, and not on what awaiting it would give. *)
Lemma protect_pinned_single (env : discord) (c : Z) (m : PartialMessage) (skipped : Z) :
  protect_pinned env c [m] skipped = Return None.
Proof. reflexivity. Qed.

Lemma process_group_protected_single (env : discord) (st : pass_state) (c : Z)
    (m : PartialMessage) :
  process_group env true st (c, [m]) = (st, None).
Proof. reflexivity. Qed.

(** C4, on the code.  Pin protection is on and the batch is one message of
    the channel 2 that is not pinned: awaited, [is_protected_message] would
    answer [False].  The pass issues no deletion call, counts the message as
    cleared and commits, so that the entry is gone from the queue while the
    message stays on Discord. *)
Theorem protected_single_message_is_dropped :
  let bot := bot_of true (register_all [b1] two_channels) in
  let report := clear_expired_messages healthy bot in
  popped report = [partial b1] ∧
  is_protected_message healthy (partial b1) = Return false ∧
  issued report = [] ∧
  verdict report = Return (1, 0) ∧
  tbl_messages (durable (message_registry bot)) !! (2, msg_id b1)
    = Some (time_snowflake (msg_created_at b1 + 600000000)) ∧
  tbl_messages (durable (message_registry (bot_after report))) !! (2, msg_id b1) = None ∧
  issued (clear_expired_messages healthy (bot_of false (register_all [b1] two_channels)))
    = [SingleDelete (partial b1)].
Proof. vm_compute. repeat split; reflexivity. Qed.

(** C1, on the code.  The batch is two messages of the channel 1 and one of
    the channel 2.  The channel 1 is gone: fetching it for the bulk call
    raises [NotFound], so [fetch_or_deregister_channel] deregisters it, and
    the commit of [deregister_channel] makes the DELETE of the pop durable.
    The deletion of the message of the channel 2 then fails with a server
    error: the pass raises and rolls back, but there is nothing left to roll
    back; the entry of the channel 2 is gone from the durable state and a
    second pop at the same instant is empty. *)
Theorem rollback_after_deregistration_restores_nothing :
  let r := register_all [a1; a2; b1] two_channels in
  let report := clear_expired_messages channel_gone (bot_of false r) in
  let r' := message_registry (bot_after report) in
  durable r = db r ∧
  popped report = [partial a1; partial a2; partial b1] ∧
  issued report = [SingleDelete (partial b1)] ∧
  run_deletion channel_gone (SingleDelete (partial b1)) = Raise HTTPException ∧
  verdict report = Raise HTTPException ∧
  tbl_messages (durable r) !! (2, msg_id b1)
    = Some (time_snowflake (msg_created_at b1 + 600000000)) ∧
  tbl_messages (durable r') !! (2, msg_id b1) = None ∧
  (pop_expired_messages clock r).2 = [partial a1; partial a2; partial b1] ∧
  (pop_expired_messages clock r').2 = [].
Proof. vm_compute. repeat split; reflexivity. Qed.

(** ** The batch deletion executor: commit or rollback *)

Section pass_facts.
Implicit Types (env : discord) (st : pass_state) (r : MessageRegistry).

Lemma fetch_or_deregister_channel_registry env r c :
  fetch_channel env c ≠ Raise NotFound →
  (fetch_or_deregister_channel env r c).1 = r.
Proof.
  intros Hf. unfold fetch_or_deregister_channel.
  destruct (get_channel env c); [done|].
  destruct (fetch_channel env c) as [|[]]; done.
Qed.

Lemma route_group_registry env r c g :
  no_deregistration env → (route_group env r c g).1 = r.
Proof.
  intros Hf. unfold route_group.
  destruct (filter _ g) as [|m1 [|m2 young]]; [done|done|].
  destruct (get_channel env c) eqn:Eg; [done|].
  pose proof (fetch_or_deregister_channel_registry env r c (Hf c Eg)) as Hr.
  destruct (fetch_or_deregister_channel env r c) as [r' [|e]]; simpl in *.
  - by subst.
  - subst. by destruct (is_HTTPException e).
Qed.

Lemma process_group_registry env protect st group :
  no_deregistration env →
  registry (process_group env protect st group).1 = registry st.
Proof.
  intros Hf. unfold process_group. destruct group as [c g].
  destruct (if protect then _ else _) as [[[g' skipped]|]|e]; [|done|done].
  pose proof (route_group_registry env (registry st) c g' Hf) as Hr.
  destruct (route_group env (registry st) c g') as [r' [calls|e]]; simpl in *;
    by subst.
Qed.

Lemma process_groups_registry env protect groups : ∀ st,
  no_deregistration env →
  registry (process_groups env protect st groups).1 = registry st.
Proof.
  induction groups as [|g groups IH]; intros st Hf; simpl; [done|].
  pose proof (process_group_registry env protect st g Hf) as Hg.
  destruct (process_group env protect st g) as [st' [e|]]; simpl in *; [done|].
  rewrite IH by done. done.
Qed.

(** The verdict on the results depends on the results alone: it is an
    exception exactly when one of them is an exception other than
    [Forbidden] and [NotFound]. *)
Lemma check_results_Raise pairs : ∀ n,
  (∃ e, check_results pairs n = Raise e) ↔ Exists fatal_result pairs.*2.
Proof.
  induction pairs as [|[m [u|e]] pairs IH]; intros n; simpl.
  - split; [by intros [? ?]|]. intros H. by apply Exists_nil in H.
  - rewrite IH, Exists_cons. simpl. tauto.
  - rewrite Exists_cons. simpl.
    destruct e; simpl; rewrite ?IH;
      try (split; [by right|intros [(? & ? & ?)|]; done]);
      (split; [intros _; left; done|eauto]).
Qed.

End pass_facts.

(** As long as no channel is deregistered during the pass, the pass is
    atomic on the registry: when it raises, the registry is the popped one
    rolled back, that is, with the database of the last commit; when it
    returns, the registry is the popped one committed.  Once the calls are
    issued the pass raises exactly when one of the results examined is
    neither a success nor [Forbidden] nor [NotFound]. *)
Theorem pass_commits_or_rolls_back (env : discord) (bot : AutoDeleteBot) :
  no_deregistration env →
  let report := clear_expired_messages env bot in
  let popped_registry := (pop_expired_messages (utcnow env) (message_registry bot)).1 in
  popped report = (pop_expired_messages (utcnow env) (message_registry bot)).2 ∧
  match verdict report with
  | Raise _ =>
      message_registry (bot_after report) = rollback popped_registry ∧
      db (message_registry (bot_after report)) = durable (message_registry bot)
  | Return _ =>
      message_registry (bot_after report) = commit popped_registry ∧
      durable (message_registry (bot_after report))
        = SQL.delete_expired (time_snowflake (utcnow env)) (db (message_registry bot)) ∧
      ¬ Exists fatal_result
          (zip (popped report) (run_deletion env <$> issued report)).*2
  end.
Proof.
  intros Hf. unfold clear_expired_messages.
  destruct (pop_expired_messages _ _) as [r messages] eqn:Epop.
  match goal with |- context [process_groups env ?p ?st ?gs] =>
    pose proof (process_groups_registry env p gs st Hf) as Hreg;
    destruct (process_groups env p st gs) as [st' [e|]] end;
    simpl in Hreg.
  - simpl. rewrite Hreg. split; [done|]. split; [done|].
    simpl. by injection Epop as <- _.
  - destruct (check_results _ 0) as [n|e] eqn:Ech; simpl; rewrite Hreg.
    + split; [done|]. split; [done|]. split; [by injection Epop as <- _|].
      intros Hex. apply check_results_Raise with (n := 0) in Hex as [e He].
      congruence.
    + split; [done|]. split; [done|]. by injection Epop as <- _.
Qed.

(** ** Every result is examined *)

Section examined_facts.
Implicit Types (env : discord) (st : pass_state) (g : list PartialMessage).

Lemma groupby_concat (messages : list PartialMessage) :
  concat (groupby messages).*2 = messages.
Proof.
  induction messages as [|m messages IH]; simpl; [done|].
  destruct (groupby messages) as [|[c g] groups]; simpl in *.
  - by rewrite <- IH.
  - case_decide; simpl; by rewrite <- IH.
Qed.

Lemma age_partition_length env g :
  (length (bulk_eligible env g) + length (single_only env g))%nat = length g.
Proof.
  unfold bulk_eligible, single_only.
  induction g as [|m g IH]; [done|].
  rewrite !filter_cons, length_cons.
  repeat case_decide; rewrite ?length_cons; lia.
Qed.

Lemma route_group_length env r c g r' calls :
  route_group env r c g = (r', Return calls) → (length calls ≤ length g)%nat.
Proof.
  unfold route_group. fold (bulk_eligible env g). fold (single_only env g).
  pose proof (age_partition_length env g) as Hlen.
  destruct (bulk_eligible env g) as [|m1 [|m2 young]] eqn:Ey.
  - intros [= _ <-]. rewrite length_fmap. simpl in Hlen. lia.
  - intros [= _ <-]. simpl. rewrite length_fmap. simpl in Hlen. lia.
  - destruct (if get_channel env c then _ else _) as [r'' [[]|e]].
    + intros [= _ <-]. rewrite length_app, !length_fmap.
      unfold range. rewrite length_fmap, length_seq. simpl length in *.
      div_100 (S (S (length young)) + 100 - 1)%nat. lia.
    + destruct (is_HTTPException e); [|done]. intros [= _ <-]. simpl. lia.
Qed.

Lemma protect_pinned_length env c g skipped g' skipped' :
  protect_pinned env c g skipped = Return (Some (g', skipped')) →
  (length g' ≤ length g)%nat.
Proof.
  unfold protect_pinned. case_bool_decide.
  - destruct (pins env c) as [channel_pins|e].
    + pose proof (length_filter (λ m, pm_id m ∉ channel_pins) g) as Hl.
      destruct (filter _ g); [done|]. intros [= <- _]. exact Hl.
    + destruct (is_HTTPException e); [|done].
      destruct g; [done|]. by intros [= <- _].
  - destruct g as [|m g]; done.
Qed.

Lemma process_group_length env protect st c g st' :
  process_group env protect st (c, g) = (st', None) →
  (length (deletions st') ≤ length (deletions st) + length g)%nat.
Proof.
  unfold process_group.
  destruct protect.
  - destruct (protect_pinned env c g (skipped_count st)) as [[[g' sk]|]|e] eqn:Ep.
    + apply protect_pinned_length in Ep.
      destruct (route_group env (registry st) c g') as [r' [calls|e]] eqn:Er; [|done].
      apply route_group_length in Er. intros [= <-]. simpl.
      rewrite length_app. lia.
    + intros [= <-]. lia.
    + done.
  - destruct (route_group env (registry st) c g) as [r' [calls|e]] eqn:Er; [|done].
    apply route_group_length in Er. intros [= <-]. simpl.
    rewrite length_app. lia.
Qed.

Lemma process_groups_cons env protect st group groups :
  process_groups env protect st (group :: groups) =
    match process_group env protect st group with
    | (st', None) => process_groups env protect st' groups
    | (st', Some e) => (st', Some e)
    end.
Proof. reflexivity. Qed.

Lemma process_groups_length env protect groups : ∀ st st',
  process_groups env protect st groups = (st', None) →
  (length (deletions st') ≤ length (deletions st) + length (concat groups.*2))%nat.
Proof.
  induction groups as [|[c g] groups IH]; intros st st'.
  - intros [= <-]. simpl. lia.
  - rewrite process_groups_cons, fmap_cons, concat_cons, length_app.
    destruct (process_group env protect st (c, g)) as [st1 [e|]] eqn:Eg;
      [intros ?; simplify_eq|].
    apply process_group_length in Eg. intros Hrest. apply IH in Hrest.
    simpl. lia.
Qed.

End examined_facts.

(** X21. The calls a pass issues are at most as many as the messages it
    popped, so that [zip(messages, results)] reaches every result. *)
Theorem every_result_is_examined (env : discord) (bot : AutoDeleteBot) :
  let report := clear_expired_messages env bot in
  (zip (popped report) (run_deletion env <$> issued report)).*2
    = run_deletion env <$> issued report.
Proof.
  intros report. apply snd_zip. rewrite length_fmap.
  unfold report, clear_expired_messages.
  destruct (pop_expired_messages _ _) as [r messages].
  destruct (process_groups _ _ _ _) as [st' [e|]] eqn:Eg; simpl; [lia|].
  apply process_groups_length in Eg. rewrite groupby_concat in Eg. simpl in Eg.
  destruct (check_results _ 0); simpl; lia.
Qed.

(** The pass of C1 is outside this guarantee: it deregisters a channel. *)
Lemma channel_gone_deregisters : ¬ no_deregistration channel_gone.
Proof. intros H. by apply (H 1). Qed.

(** ** The claims at concrete inputs *)

Lemma registry_ok_register_all (ms : list Message) (r : MessageRegistry) :
  registry_ok r → registry_ok (register_all ms r).
Proof.
  revert r. induction ms as [|m ms IH]; intros r Hr; simpl; [done|].
  apply IH. by apply registry_ok_register_message.
Qed.

Lemma registry_ok_two_channels : registry_ok two_channels.
Proof. do 2 apply registry_ok_register_channel. apply registry_ok_empty. Qed.


Lemma deregister_channel_spec_witness :
  ∃ r', deregister_channel (register_all [a1; a2; b1] two_channels) 1 = (r', true) ∧
        deregister_channel r' 1 = (r', false) ∧
        ∀ now m, {| pm_channel := 1; pm_id := m |} ∉ (pop_expired_messages now r').2.
Proof.
  destruct (deregister_channel_spec (register_all [a1; a2; b1] two_channels) 1)
    as (_ & _ & H).
  - apply registry_ok_register_all, registry_ok_two_channels.
  - destruct H as (r' & H1 & H2 & _ & _ & _ & _ & H3).
    + exists channel_1. reflexivity.
    + exists r'. split; [exact H1|]. split; [exact H2|exact H3].
Defined.

Lemma register_channel_empties_queue_witness :
  tbl_messages (db (register_all [a1; a2; b1] two_channels)) !! (1, msg_id a2)
    = Some (time_snowflake 1700000600000000) ∧
  ∃ r', register_channel (register_all [a1; a2; b1] two_channels)
          {| id := 1; duration := 1200000000; after := msg_id a1 |} = (r', Return tt) ∧
        ∀ m, tbl_messages (db r') !! (1, m) = None.
Proof.
  split; [reflexivity|].
  destruct (register_channel_empties_queue (register_all [a1; a2; b1] two_channels)
              {| id := 1; duration := 1200000000; after := msg_id a1 |})
    as (r' & H1 & _ & _ & _ & _ & H2 & _).
  - reflexivity.
  - exists {| duration_seconds := 600000000; row_after := 100 |}. reflexivity.
  - exists r'. split; [exact H1|exact H2].
Defined.


(** C10 as it is stated fails between two passes: [_wait_until_needed]
    assigns the earliest pending deadline to [wake_time], which is later
    than the instant the previous wait was for. *)
Lemma wake_time_rises_between_passes :
  ¬ wake_time_only_decreases (states_between_passes [] rested_bot).
Proof.
  intros H.
  destruct (states_between_passes [] rested_bot !! 1%nat) as [b'|] eqn:E;
    [|vm_compute in E; discriminate E].
  specialize (H 0%nat 1%nat rested_bot b' ltac:(lia) eq_refl E).
  vm_compute in E. injection E as <-. vm_compute in H. by apply H.
Qed.

(** C5 as it is stated fails for [deregister_channel]: after its first step
    the channel 1 is gone from the mirror while its row is still in the
    durable state, which the call has yet to change. *)
Lemma deregister_channel_updates_mirror_first :
  ¬ mirror_follows_commit two_channels (deregister_channel_trace two_channels 1).
Proof.
  intros H.
  specialize (H {| channels := delete 1 (channels two_channels);
                   db := db two_channels; durable := durable two_channels |}).
  assert (durable two_channels = SQL.delete_channel 1 (db two_channels)) as Heq.
  { apply H.
    - apply list_elem_of_here.
    - simpl. intros Hm. apply (f_equal (λ m : gmap Z AutoDeleteChannel, m !! 1)) in Hm.
      vm_compute in Hm. discriminate Hm. }
  apply (f_equal (λ d, tbl_channels d !! 1)) in Heq.
  vm_compute in Heq. discriminate Heq.
Qed.

Lemma mirror_update_order_witness :
  mirror_follows_commit two_channels (register_channel_trace two_channels channel_1) ∧
  ∀ s, s ∈ register_channel_trace two_channels channel_1
             ++ deregister_channel_trace two_channels 1 →
       mirror_in s (durable s).
Proof.
  destruct (mirror_update_order two_channels channel_1 1) as (H1 & _ & H2).
  - apply registry_ok_two_channels.
  - split; [exact H1|exact H2].
Defined.

Lemma early_wake_witness :
  resolve_time
    (await_active_sleep (clock + 1000)
       {| fires_at := clock + 1000; cancel_requested := false |} sleeping_bot
       [(clock + 100, Shorten (clock + 500)); (clock + 200, Shorten (clock + 700))])
    = clock + 500.
Proof.
  destruct (early_wake sleeping_bot
              {| fires_at := clock + 1000; cancel_requested := false |}
              (clock + 1000) (clock + 500) (clock + 100)
              [(clock + 200, Shorten (clock + 700))])
    as (_ & _ & _ & _ & _ & H & _).
  - reflexivity.
  - reflexivity.
  - reflexivity.
  - reflexivity.
  - reflexivity.
  - reflexivity.
  - simpl. split; [discriminate|exact I].
  - apply Z.le_antisymm; [apply H; discriminate|].
    vm_compute. discriminate.
Defined.

Lemma shorten_sleep_never_delays_witness :
  _shorten_sleep (clock + 2000) sleeping_bot = sleeping_bot ∧
  wake_time (shorten_all [clock + 2000; clock + 500; clock + 700] sleeping_bot)
    ≤ wake_time sleeping_bot ∧
  wake_time_only_decreases
    (shortened_states [clock + 2000; clock + 500; clock + 700] sleeping_bot).
Proof.
  destruct (shorten_sleep_never_delays sleeping_bot (clock + 2000)
              [clock + 2000; clock + 500; clock + 700] [])
    as (H1 & _ & _ & H2 & _ & H3 & _).
  - discriminate.
  - split; [exact H1|]. split; [exact H2|exact H3].
Defined.

(** * Properties of the rest of the registry *)

Section reachable_facts.
Implicit Types (r : MessageRegistry) (d : database) (c : Z).

Lemma insert_message_channels c m t d d' :
  SQL.insert_message c m t d = Some d' → tbl_channels d' = tbl_channels d.
Proof.
  unfold SQL.insert_message.
  destruct (tbl_channels d !! c); [|done].
  destruct (tbl_messages d !! (c, m)); [done|]. by intros [= <-].
Qed.

Lemma mirror_synced_commit r : mirror_synced r → mirror_synced (commit r).
Proof. intros [H1 H2]. by split. Qed.

Lemma mirror_synced_rollback r : mirror_synced r → mirror_synced (rollback r).
Proof. intros [H1 H2]. split; simpl; [by rewrite <- H2|done]. Qed.

Lemma mirror_synced_pop now r :
  mirror_synced r → mirror_synced (pop_expired_messages now r).1.
Proof. intros [H1 H2]. by split. Qed.

Lemma mirror_synced_register_message r message :
  mirror_synced r → mirror_synced (register_message r message).1.
Proof.
  intros [H1 H2]. unfold register_message.
  destruct (channels r !! msg_channel message) as [cfg|]; [|done].
  destruct (fits_int64 _); [|done].
  destruct (SQL.insert_message _ _ _ _) as [d|] eqn:Hi; [|done].
  apply insert_message_channels in Hi. split; simpl; [by rewrite Hi|done].
Qed.

Lemma mirror_synced_register_channel r cfg :
  mirror_synced r → mirror_synced (register_channel r cfg).1.
Proof.
  intros [H1 H2]. unfold register_channel. case_bool_decide; [|done].
  rewrite register_channel_last. simpl. split; simpl; [|done].
  rewrite delete_channel_channels. apply map_eq. intros i.
  rewrite map_lookup_imap. destruct (decide (id cfg = i)) as [<-|Hne].
  - rewrite !lookup_insert_eq. simpl. by destruct cfg.
  - rewrite !lookup_insert_ne, lookup_delete_ne by done.
    by rewrite H1, map_lookup_imap.
Qed.

Lemma mirror_synced_deregister_channel r c :
  mirror_synced r → mirror_synced (deregister_channel r c).1.
Proof.
  intros [H1 H2]. unfold deregister_channel.
  destruct (channels r !! c) as [cfg|]; [|done].
  rewrite deregister_channel_last. simpl. split; simpl; [|done].
  rewrite delete_channel_channels. apply map_eq. intros i.
  rewrite map_lookup_imap. destruct (decide (c = i)) as [<-|Hne].
  - by rewrite !lookup_delete_eq.
  - rewrite !lookup_delete_ne by done. by rewrite H1, map_lookup_imap.
Qed.

Lemma open_channels (file : database) :
  channels (open file)
    = map_imap (λ c row, Some (channel_of_row c row)) (tbl_channels file).
Proof. unfold open, _init_channels. simpl. apply (right_id_L ∅ (∪)). Qed.

Lemma mirror_synced_open (file : database) : mirror_synced (open file).
Proof. split; [apply open_channels|done]. Qed.

Lemma registry_ok_open (file : database) : fk_ok file → registry_ok (open file).
Proof.
  intros Hfk.
  assert (mirror_in (open file) file) as Hm.
  { intros c. rewrite open_channels, map_lookup_imap.
    destruct (tbl_channels file !! c); [eauto|]. by intros [? ?]. }
  by split.
Qed.

Lemma run_call_invariant r call :
  registry_ok r ∧ mirror_synced r →
  registry_ok (run_call r call) ∧ mirror_synced (run_call r call).
Proof.
  intros [Hok Hsync]. destruct call; unfold run_call; split.
  - by apply registry_ok_register_channel.
  - by apply mirror_synced_register_channel.
  - by apply registry_ok_deregister_channel.
  - by apply mirror_synced_deregister_channel.
  - by apply registry_ok_register_message.
  - by apply mirror_synced_register_message.
  - by apply registry_ok_pop.
  - by apply mirror_synced_pop.
  - by apply registry_ok_commit.
  - by apply mirror_synced_commit.
  - by apply registry_ok_rollback.
  - by apply mirror_synced_rollback.
Qed.

Lemma run_calls_invariant calls : ∀ r,
  registry_ok r ∧ mirror_synced r →
  registry_ok (run_calls r calls) ∧ mirror_synced (run_calls r calls).
Proof.
  induction calls as [|call calls IH]; intros r Hr; [done|].
  apply (IH (run_call r call)), run_call_invariant, Hr.
Qed.

End reachable_facts.

(** X1. Whatever calls are made on a registry opened from a database file
    that respects the foreign key, the registry stays consistent: every
    pending entry belongs to a channel that has a row, in the open
    transaction and in the durable state, and every channel of the mirror
    has a row in both. *)
Theorem reachable_registry_consistent (file : database) (calls : list registry_call) :
  fk_ok file →
  registry_ok (run_calls (open file) calls).
Proof.
  intros Hfk. apply run_calls_invariant.
  split; [by apply registry_ok_open|apply mirror_synced_open].
Qed.

(** X2. Restart.  After any calls on a registry opened from a file that
    respects the foreign key, the mirror is exactly what [open] would load
    from the durable state: the same channels with the same durations and
    cutoffs. *)
Theorem reopen_restores_mirror (file : database) (calls : list registry_call) :
  fk_ok file →
  channels (open (durable (run_calls (open file) calls)))
    = channels (run_calls (open file) calls).
Proof.
  intros Hfk.
  destruct (run_calls_invariant calls (open file)) as [_ [H1 H2]].
  { split; [by apply registry_ok_open|apply mirror_synced_open]. }
  by rewrite open_channels, <- H2, <- H1.
Qed.

Section query_facts.
Implicit Types (r : MessageRegistry) (d : database).

#[global] Instance by_delete_at_trans : Transitive SQL.by_delete_at.
Proof. intros x y z. unfold SQL.by_delete_at. lia. Qed.
#[global] Instance by_delete_at_total : Total SQL.by_delete_at.
Proof. intros x y. unfold SQL.by_delete_at. lia. Qed.
#[global] Instance by_message_id_desc_trans : Transitive SQL.by_message_id_desc.
Proof. intros x y z. unfold SQL.by_message_id_desc. lia. Qed.
#[global] Instance by_message_id_desc_total : Total SQL.by_message_id_desc.
Proof. intros x y. unfold SQL.by_message_id_desc. lia. Qed.
#[global] Instance by_channel_id_trans : Transitive SQL.by_channel_id.
Proof. intros x y z. unfold SQL.by_channel_id. lia. Qed.

Lemma snowflake_time_mono a b : a ≤ b → snowflake_time a ≤ snowflake_time b.
Proof.
  intros H. unfold snowflake_time. rewrite !Z.shiftr_div_pow2 by lia.
  assert (a `div` 2 ^ 22 ≤ b `div` 2 ^ 22) by (apply Z.div_le_mono; lia). lia.
Qed.

(** The head of a sorted permutation of a list is in the list and below
    every element of it. *)
Lemma head_merge_sort_least {A : Type} (R : relation A)
    `{!∀ x y, Decision (R x y), !Transitive R, !Total R} (l : list A) x :
  head (merge_sort R l) = Some x → x ∈ l ∧ ∀ y, y ∈ l → R x y.
Proof.
  intros Hh. pose proof (StronglySorted_merge_sort R l) as Hs.
  apply head_Some in Hh as [l' Hl]. rewrite Hl in Hs.
  apply StronglySorted_cons in Hs as [Hall _].
  assert (∀ y, y ∈ l ↔ y ∈ x :: l') as Hperm.
  { intros y. by rewrite <- Hl, merge_sort_Permutation. }
  split; [apply Hperm; left|].
  intros y Hy. apply Hperm, elem_of_cons in Hy as [->|Hy].
  - destruct (total R x x); done.
  - by eapply Forall_forall in Hall.
Qed.

Lemma head_merge_sort_None {A : Type} (R : relation A)
    `{!∀ x y, Decision (R x y)} (l : list A) :
  head (merge_sort R l) = None → l = [].
Proof.
  intros Hh. apply Permutation_nil_r. rewrite <- (merge_sort_Permutation R l).
  by destruct (merge_sort R l).
Qed.

End query_facts.

(** X3. [get_next_expiring_message] returns nothing exactly when no entry is
    pending.  Otherwise it returns a pending entry together with its decoded
    deadline, and no pending entry has an earlier deadline. *)
Theorem next_expiring_is_earliest (r : MessageRegistry) :
  match get_next_expiring_message r with
  | None => tbl_messages (db r) = ∅
  | Some (message, delete_at) =>
      ∃ stored,
        tbl_messages (db r) !! (pm_channel message, pm_id message) = Some stored ∧
        delete_at = snowflake_time stored ∧
        ∀ k d, tbl_messages (db r) !! k = Some d →
               stored ≤ d ∧ delete_at ≤ snowflake_time d
  end.
Proof.
  unfold get_next_expiring_message, SQL.select_next_expiring.
  destruct (head _) as [[[c m] t]|] eqn:Hh.
  - apply head_merge_sort_least in Hh as [Hin Hmin]; [|apply _..].
    apply elem_of_map_to_list in Hin. exists t. simpl.
    split; [done|]. split; [done|]. intros k d Hk.
    assert (t ≤ d) by (apply (Hmin (k, d)); by apply elem_of_map_to_list).
    split; [done|]. by apply snowflake_time_mono.
  - apply head_merge_sort_None in Hh. by apply map_to_list_empty_iff.
Qed.

(** X5. [get_latest_message] returns nothing exactly when the channel has no
    pending entry.  Otherwise it returns a pending message of the channel,
    and no pending message of the channel has a higher id. *)
Theorem latest_message_is_highest (r : MessageRegistry) (channel : Z) :
  match get_latest_message r channel with
  | None => ∀ m, tbl_messages (db r) !! (channel, m) = None
  | Some message =>
      pm_channel message = channel ∧
      is_Some (tbl_messages (db r) !! (channel, pm_id message)) ∧
      ∀ m, is_Some (tbl_messages (db r) !! (channel, m)) → m ≤ pm_id message
  end.
Proof.
  unfold get_latest_message.
  assert (∀ k, k ∈ filter (λ k : Z * Z, k.1 = channel) (map_to_list (tbl_messages (db r))).*1
               ↔ k.1 = channel ∧ is_Some (tbl_messages (db r) !! k)) as Hkeys.
  { intros k. rewrite list_elem_of_filter, list_elem_of_fmap. split.
    - intros [Hc ([k' t] & -> & Hin)]. apply elem_of_map_to_list in Hin.
      split; [done|]. simpl. eauto.
    - intros [Hc [t Ht]]. split; [done|]. exists (k, t).
      split; [done|]. by apply elem_of_map_to_list. }
  destruct (head _) as [[c m]|] eqn:Hh; simpl.
  - apply head_merge_sort_least in Hh as [Hin Hmax]; [|apply _..].
    apply Hkeys in Hin as [Hc Hq]. simpl in Hc. subst c.
    split; [done|]. split; [done|]. intros m' Hm'.
    apply (Hmax (channel, m')), Hkeys. by split.
  - apply head_merge_sort_None in Hh. intros m.
    destruct (tbl_messages (db r) !! (channel, m)) as [t|] eqn:E; [|done].
    assert ((channel, m) ∈ @nil (Z * Z)) as Hnil
      by (rewrite <- Hh; apply Hkeys; split; [done|rewrite E; eauto]).
    by apply elem_of_nil in Hnil.
Qed.

(** X4. The earliest-deadline query does not look at the cutoff.  When
    every pending entry is at or below the cutoff of its channel and the
    queue is not empty, [get_next_expiring_message] still names an entry,
    while no pop, at whatever instant, returns any. *)
Theorem protected_entries_are_announced_but_never_popped (r : MessageRegistry) :
  tbl_messages (db r) ≠ ∅ →
  (∀ c m d row,
     tbl_messages (db r) !! (c, m) = Some d →
     tbl_channels (db r) !! c = Some row → m ≤ row_after row) →
  is_Some (get_next_expiring_message r) ∧
  ∀ now, (pop_expired_messages now r).2 = [].
Proof.
  intros Hne Hprot. split.
  - unfold get_next_expiring_message, SQL.select_next_expiring.
    destruct (head _) as [row|] eqn:Hh; [eauto|].
    apply head_merge_sort_None, map_to_list_empty_iff in Hh. done.
  - intros now. destruct (pop_expired_messages now r).2 as [|[c m] batch] eqn:E; [done|].
    assert ({| pm_channel := c; pm_id := m |} ∈ (pop_expired_messages now r).2) as Hin
      by (rewrite E; left).
    apply pop_elem_of in Hin as (d & row & Hm & Hrow & _ & Hlt).
    specialize (Hprot c m d row Hm Hrow). lia.
Qed.

Section groupby_facts.
Implicit Types (l : list PartialMessage) (m : PartialMessage).

Lemma groupby_members l :
  Forall (λ cg, cg.2 ≠ [] ∧ ∀ m, m ∈ cg.2 → pm_channel m = cg.1) (groupby l).
Proof.
  induction l as [|m l IH]; simpl; [constructor|].
  destruct (groupby l) as [|[c g] groups].
  - constructor; [|constructor]. split; [done|].
    intros m'. simpl. rewrite list_elem_of_singleton. by intros ->.
  - apply Forall_cons in IH as [[Hne Hg] IH]. case_decide as Hc.
    + constructor; [|done]. split; [done|]. intros m'. simpl.
      rewrite elem_of_cons. intros [->|Hm']; [done|by apply Hg].
    + constructor; [|by constructor]. split; [done|].
      intros m'. simpl. rewrite list_elem_of_singleton. by intros ->.
Qed.

Lemma groupby_first_key m l :
  ∃ g groups, groupby (m :: l) = (pm_channel m, g) :: groups.
Proof.
  simpl. destruct (groupby l) as [|[c g] groups]; [eauto|].
  case_decide as Hc; [subst c|]; eauto.
Qed.

Lemma groupby_keys_increasing l :
  StronglySorted (λ x y, pm_channel x ≤ pm_channel y) l →
  StronglySorted (λ c c' : Z, c < c') (groupby l).*1.
Proof.
  induction l as [|m l IH]; intros Hs; [constructor|].
  apply StronglySorted_cons in Hs as [Hall Hs]. specialize (IH Hs).
  simpl. destruct l as [|m' l'].
  { simpl. repeat constructor. }
  destruct (groupby_first_key m' l') as (g & groups & Hg).
  rewrite Hg in *. case_decide as Hc; [done|].
  rewrite fmap_cons. simpl fst. apply StronglySorted_cons. split; [|done].
  apply Forall_cons in Hall as [Hle _].
  assert (pm_channel m < pm_channel m') as Hlt by lia.
  rewrite fmap_cons in IH. apply StronglySorted_cons in IH as [Hkeys _].
  constructor; [done|]. eapply Forall_impl; [exact Hkeys|].
  intros c' Hc'. simpl in *. lia.
Qed.

Lemma increasing_NoDup (l : list Z) :
  StronglySorted (λ c c' : Z, c < c') l → NoDup l.
Proof.
  induction l as [|c l IH]; intros Hs; [constructor|].
  apply StronglySorted_cons in Hs as [Hall Hs]. constructor; [|by apply IH].
  intros Hin. eapply Forall_forall in Hall; [|exact Hin]. lia.
Qed.

Lemma pop_sorted now r :
  StronglySorted (λ x y, pm_channel x ≤ pm_channel y) (pop_expired_messages now r).2.
Proof.
  unfold pop_expired_messages. simpl.
  apply (StronglySorted_fmap _ SQL.by_channel_id); [done|].
  apply Sorted_StronglySorted; [apply _|]. apply select_expired_sorted.
Qed.

End groupby_facts.

(** X6. The batch of a pop comes ordered by channel, so that [groupby] on
    it gives one group per channel: the channels of the groups are pairwise
    distinct, no group is empty, every message of a group is of the group's
    channel, and the groups together are the batch. *)
Theorem popped_batch_groups_by_channel (now : Z) (r : MessageRegistry) :
  let batch := (pop_expired_messages now r).2 in
  NoDup (groupby batch).*1 ∧
  concat (groupby batch).*2 = batch ∧
  ∀ c g, (c, g) ∈ groupby batch → g ≠ [] ∧ ∀ m, m ∈ g → pm_channel m = c.
Proof.
  intros batch. split; [|split].
  - apply increasing_NoDup, groupby_keys_increasing, pop_sorted.
  - apply groupby_concat.
  - intros c g Hin. pose proof (groupby_members batch) as Hall.
    eapply Forall_forall in Hall; [|exact Hin]. exact Hall.
Qed.

(** X7. A pop leaves nothing for a second pop in the same transaction: at
    the same or an earlier instant the second batch is empty. *)
Theorem second_pop_is_empty (now now' : Z) (r : MessageRegistry) :
  now' ≤ now →
  (pop_expired_messages now' (pop_expired_messages now r).1).2 = [].
Proof.
  intros Hle.
  destruct (pop_expired_messages now' _).2 as [|[c m] batch] eqn:E; [done|].
  assert ({| pm_channel := c; pm_id := m |}
            ∈ (pop_expired_messages now' (pop_expired_messages now r).1).2) as Hin
    by (rewrite E; left).
  apply pop_elem_of in Hin as (d & row & Hm & _ & Hd & _).
  apply delete_expired_lookup in Hm as [_ Hn].
  apply time_snowflake_mono in Hle. lia.
Qed.

Lemma second_pop_is_empty_witness :
  (pop_expired_messages clock (register_all [a1; a2; b1] two_channels)).2
    = [partial a1; partial a2; partial b1] ∧
  (pop_expired_messages clock
     (pop_expired_messages clock (register_all [a1; a2; b1] two_channels)).1).2 = [].
Proof.
  split; [vm_compute; reflexivity|].
  apply (second_pop_is_empty clock clock). reflexivity.
Defined.

(** X8. [register_message] has four outcomes.  For a channel that is not
    in the mirror it returns [None] and leaves the registry as it is.  When
    the snowflake of the deadline does not fit the signed 64-bit integer of
    SQLite it raises [OverflowError], and for a message that is already
    queued the integrity error of the INSERT, both with the registry
    untouched; on a consistent registry nothing else makes it raise.
    Otherwise it returns the deadline [created_at + duration], adds the one
    entry, keeps the mirror and the channels, and commits. *)
Theorem register_message_outcomes (r : MessageRegistry) (message : Message) :
  registry_ok r →
  let key := (msg_channel message, msg_id message) in
  match register_message r message with
  | (r', Return None) =>
      r' = r ∧ channels r !! msg_channel message = None
  | (r', Return (Some delete_at)) =>
      (∃ channel_config,
         channels r !! msg_channel message = Some channel_config ∧
         delete_at = msg_created_at message + duration channel_config) ∧
      fits_int64 (time_snowflake delete_at) = true ∧
      tbl_messages (db r) !! key = None ∧
      tbl_messages (db r') = <[key := time_snowflake delete_at]> (tbl_messages (db r)) ∧
      tbl_channels (db r') = tbl_channels (db r) ∧
      channels r' = channels r ∧
      durable r' = db r'
  | (r', Raise e) =>
      r' = r ∧
      ∃ channel_config,
        channels r !! msg_channel message = Some channel_config ∧
        let deadline :=
          time_snowflake (msg_created_at message + duration channel_config) in
        (e = OverflowError ∧ fits_int64 deadline = false) ∨
        (e = IntegrityError ∧ fits_int64 deadline = true ∧
         is_Some (tbl_messages (db r) !! key))
  end.
Proof.
  intros Hr key. unfold register_message, SQL.insert_message.
  destruct (channels r !! msg_channel message) as [cfg|] eqn:Ecfg; [|done].
  destruct (fits_int64 _) eqn:Efits; [|by eauto 10].
  destruct (ok_mirror_db _ Hr (msg_channel message)) as [row Hrow];
    [rewrite Ecfg; eauto|].
  rewrite Hrow. fold key.
  destruct (tbl_messages (db r) !! key) as [t|] eqn:Eq; simpl; eauto 12.
Qed.

Lemma register_message_outcomes_witness :
  register_message (register_all [b1] two_channels) b1
    = (register_all [b1] two_channels, Raise IntegrityError) ∧
  register_message other_channels d1 = (other_channels, Raise OverflowError).
Proof.
  pose proof (register_message_outcomes (register_all [b1] two_channels) b1
                (registry_ok_register_all _ _ registry_ok_two_channels)) as H.
  split; [|reflexivity].
  destruct (register_message (register_all [b1] two_channels) b1)
    as [r' [[t|]|e]] eqn:E.
  - destruct H as (_ & _ & H & _). vm_compute in H. discriminate H.
  - destruct H as (_ & H). vm_compute in H. discriminate H.
  - destruct H as (-> & cfg & Hcfg & [[_ H]|[-> _]]); [|reflexivity].
    vm_compute in Hcfg. injection Hcfg as <-. vm_compute in H. discriminate H.
Defined.

(** X9. [register_message] commits whatever the connection holds.  Called
    between a pop and the end of its pass, it makes the deletions of the pop
    durable: a rollback afterwards changes nothing, and the durable state
    holds no entry that was due at the pop, apart from the one just
    added. *)
Theorem register_message_commits_open_pop (now : Z) (r r' : MessageRegistry)
    (message : Message) (delete_at : Z) :
  register_message (pop_expired_messages now r).1 message
    = (r', Return (Some delete_at)) →
  rollback r' = r' ∧
  ∀ c m d,
    tbl_messages (durable r') !! (c, m) = Some d →
    (c, m) = (msg_channel message, msg_id message) ∨ ¬ d ≤ time_snowflake now.
Proof.
  unfold register_message, SQL.insert_message.
  destruct (channels _ !! _) as [cfg|]; [|done].
  destruct (fits_int64 _); [|done].
  destruct (tbl_channels _ !! _) as [row|]; [|done].
  destruct (tbl_messages _ !! _) as [t|] eqn:Eq; [done|].
  intros [= <- <-]. split; [done|]. intros c m d. simpl.
  destruct (decide ((msg_channel message, msg_id message) = (c, m))) as [->|Hne];
    [by left|].
  rewrite lookup_insert_ne by done. rewrite map_lookup_filter_Some. simpl.
  intros [_ Hd]. by right.
Qed.

Lemma register_message_commits_open_pop_witness :
  ∃ r', rollback r' = r' ∧
        tbl_messages (durable r') !! (1, msg_id a1) = None ∧
        tbl_messages (durable (register_all [a1] two_channels)) !! (1, msg_id a1)
          = Some (time_snowflake 1700000600000000).
Proof.
  destruct (register_message
              (pop_expired_messages clock (register_all [a1] two_channels)).1 b1)
    as [r' res] eqn:E.
  exists r'.
  destruct (register_message_commits_open_pop clock
              (register_all [a1] two_channels) r' b1 1700000600000000) as [H1 H2].
  - rewrite E. vm_compute in E. injection E as <- <-. reflexivity.
  - split; [exact H1|]. vm_compute in E. injection E as <- _.
    split; vm_compute; reflexivity.
Defined.

(** * Properties of ingestion and scanning *)

Section ingestion_facts.
Implicit Types (bot : AutoDeleteBot) (r : MessageRegistry).

Lemma set_message_registry_id bot : set_message_registry (message_registry bot) bot = bot.
Proof. by destruct bot. Qed.

Lemma shorten_sleep_frame bot dt :
  message_registry (_shorten_sleep dt bot) = message_registry bot ∧
  work_pending (_shorten_sleep dt bot) = work_pending bot ∧
  protect_pins (_shorten_sleep dt bot) = protect_pins bot.
Proof.
  destruct (decide (dt < wake_time bot)).
  - rewrite shorten_sleep_earlier by done. done.
  - rewrite shorten_sleep_later by lia. done.
Qed.

Lemma register_for_deletion_fresh bot message cfg :
  channels (message_registry bot) !! msg_channel message = Some cfg →
  is_Some (tbl_channels (db (message_registry bot)) !! msg_channel message) →
  tbl_messages (db (message_registry bot)) !! (msg_channel message, msg_id message) = None →
  fits_int64 (time_snowflake (msg_created_at message + duration cfg)) = true →
  let delete_at := msg_created_at message + duration cfg in
  ∃ bot',
    _register_message_for_deletion bot message = (bot', Return (Some delete_at)) ∧
    channels (message_registry bot') = channels (message_registry bot) ∧
    tbl_channels (db (message_registry bot')) = tbl_channels (db (message_registry bot)) ∧
    tbl_messages (db (message_registry bot'))
      = <[(msg_channel message, msg_id message) := time_snowflake delete_at]>
          (tbl_messages (db (message_registry bot))) ∧
    durable (message_registry bot') = db (message_registry bot') ∧
    work_pending bot' = true ∧
    wake_time bot' = Z.min delete_at (wake_time bot).
Proof.
  intros Hcfg [row Hrow] Hfresh Hfits delete_at.
  unfold _register_message_for_deletion, register_message, SQL.insert_message.
  rewrite Hcfg, Hfits, Hrow, Hfresh. eexists. split; [reflexivity|].
  destruct (shorten_sleep_frame
    (set_work_pending true
       (set_message_registry
          (commit (execute (λ _, {| tbl_channels := tbl_channels (db (message_registry bot));
                                    tbl_messages := <[(msg_channel message, msg_id message)
                                                        := time_snowflake delete_at]>
                                                      (tbl_messages (db (message_registry bot))) |})
                     (message_registry bot))) bot)) delete_at) as (Hr & Hw & _).
  fold delete_at. rewrite Hr, Hw, shorten_sleep_wake_time. done.
Qed.

End ingestion_facts.

(** X10. [_register_message_for_deletion] touches the scheduler only when a
    deadline was stored.  For a channel that is not configured, and when the
    registration raises, which it does with [IntegrityError] or
    [OverflowError] only, the bot is left exactly as it was, [work_pending]
    included.  When a deadline is returned, [work_pending] is set and
    [wake_time] becomes the earlier of the deadline and its old value. *)
Theorem register_for_deletion_outcomes (bot : AutoDeleteBot) (message : Message) :
  match _register_message_for_deletion bot message with
  | (bot', Return None) => bot' = bot
  | (bot', Return (Some delete_at)) =>
      work_pending bot' = true ∧
      wake_time bot' = Z.min delete_at (wake_time bot) ∧
      message_registry bot' = (register_message (message_registry bot) message).1 ∧
      protect_pins bot' = protect_pins bot
  | (bot', Raise e) => bot' = bot ∧ (e = IntegrityError ∨ e = OverflowError)
  end.
Proof.
  unfold _register_message_for_deletion.
  destruct (register_message (message_registry bot) message) as [r [[t|]|e]] eqn:E.
  - destruct (shorten_sleep_frame (set_work_pending true (set_message_registry r bot)) t)
      as (Hr & Hw & Hp).
    rewrite Hr, Hw, Hp, shorten_sleep_wake_time. done.
  - unfold register_message in E.
    destruct (channels _ !! _); [|injection E as <-; apply set_message_registry_id].
    destruct (fits_int64 _); [|done].
    destruct (SQL.insert_message _ _ _ _); done.
  - unfold register_message in E.
    destruct (channels _ !! _); [|done].
    destruct (fits_int64 _).
    + destruct (SQL.insert_message _ _ _ _); [done|].
      injection E as <- <-. split; [apply set_message_registry_id|by left].
    + injection E as <- <-. split; [apply set_message_registry_id|by right].
Qed.

(** X11. [fetch_or_deregister_channel] changes the registry in one case
    only.  When it returns, the channel was in the cache or was fetched, and
    the registry is untouched.  When it raises, the channel was not in the
    cache and the exception is the one of the fetch; for [NotFound] the
    channel is then out of the mirror and, if it was configured, its row and
    all of its pending entries are deleted and the deletion is committed;
    for any other exception the registry is untouched. *)
Theorem fetch_or_deregister_channel_outcomes (env : discord) (r : MessageRegistry)
    (channel_id : Z) :
  registry_ok r →
  match fetch_or_deregister_channel env r channel_id with
  | (r', Return _) =>
      r' = r ∧ (get_channel env channel_id = true ∨ fetch_channel env channel_id = Return tt)
  | (r', Raise e) =>
      get_channel env channel_id = false ∧
      fetch_channel env channel_id = Raise e ∧
      (e ≠ NotFound → r' = r) ∧
      (e = NotFound →
       channels r' !! channel_id = None ∧
       (channels r !! channel_id = None → r' = r) ∧
       (is_Some (channels r !! channel_id) →
        tbl_channels (db r') !! channel_id = None ∧
        (∀ m, tbl_messages (db r') !! (channel_id, m) = None) ∧
        durable r' = db r'))
  end.
Proof.
  intros Hr. unfold fetch_or_deregister_channel.
  destruct (get_channel env channel_id) eqn:Eg; [by auto|].
  destruct (fetch_channel env channel_id) as [[]|e] eqn:Ef; [by auto|].
  destruct (decide (e = NotFound)) as [->|Hne].
  - split; [done|]. split; [done|]. split; [done|]. intros _.
    destruct (channels r !! channel_id) as [cfg|] eqn:E.
    + assert (is_Some (channels r !! channel_id)) as Hc by (rewrite E; eauto).
      rewrite (deregister_channel_Some _ _ Hc). simpl.
      split; [apply lookup_delete_eq|]. split; [done|]. intros _.
      split; [by rewrite delete_channel_channels, lookup_delete_eq|].
      split; [|done]. intros m. apply delete_channel_cascade.
      by apply (ok_mirror_db _ Hr).
    + rewrite (deregister_channel_None _ _ E). simpl.
      split; [done|]. split; [done|]. by intros [? ?].
  - destruct e; try done; (split; [done|]); (split; [done|]); by split.
Qed.

Lemma fetch_or_deregister_channel_outcomes_witness :
  ∃ r', fetch_or_deregister_channel channel_gone
          (register_all [a1; a2; b1] two_channels) 1 = (r', Raise NotFound) ∧
        channels r' !! 1 = None ∧
        ∀ m, tbl_messages (db r') !! (1, m) = None.
Proof.
  pose proof (fetch_or_deregister_channel_outcomes channel_gone
                (register_all [a1; a2; b1] two_channels) 1
                (registry_ok_register_all _ _ registry_ok_two_channels)) as H.
  destruct (fetch_or_deregister_channel channel_gone
              (register_all [a1; a2; b1] two_channels) 1) as [r' [u|e]] eqn:E.
  - destruct H as [_ [H|H]]; discriminate H.
  - destruct H as (_ & Hf & _ & H). injection Hf as <-.
    destruct (H eq_refl) as (H1 & _ & H2). exists r'.
    split; [reflexivity|]. split; [exact H1|].
    apply H2. exists channel_1. reflexivity.
Defined.

Section scan_facts.
Implicit Types (bot : AutoDeleteBot) (r : MessageRegistry).

Lemma snowflake_time_lt a b : snowflake_time a < snowflake_time b → a < b.
Proof.
  intros H. destruct (decide (a < b)); [done|].
  assert (snowflake_time b ≤ snowflake_time a) by (apply snowflake_time_mono; lia).
  lia.
Qed.

Lemma get_latest_message_cases r channel :
  match get_latest_message r channel with
  | None => ∀ m, tbl_messages (db r) !! (channel, m) = None
  | Some message =>
      is_Some (tbl_messages (db r) !! (channel, pm_id message)) ∧
      ∀ m, is_Some (tbl_messages (db r) !! (channel, m)) → m ≤ pm_id message
  end.
Proof.
  unfold get_latest_message.
  assert (∀ k, k ∈ filter (λ k : Z * Z, k.1 = channel) (map_to_list (tbl_messages (db r))).*1
               ↔ k.1 = channel ∧ is_Some (tbl_messages (db r) !! k)) as Hkeys.
  { intros k. rewrite list_elem_of_filter, list_elem_of_fmap. split.
    - intros [Hc ([k' t] & -> & Hin)]. apply elem_of_map_to_list in Hin.
      split; [done|]. simpl. eauto.
    - intros [Hc [t Ht]]. split; [done|]. exists (k, t).
      split; [done|]. by apply elem_of_map_to_list. }
  destruct (head _) as [[c m]|] eqn:Hh; simpl.
  - apply head_merge_sort_least in Hh as [Hin Hmax]; [|apply _..].
    apply Hkeys in Hin as [Hc Hq]. simpl in Hc. subst c.
    split; [done|]. intros m' Hm'. apply (Hmax (channel, m')), Hkeys. by split.
  - apply head_merge_sort_None in Hh. intros m.
    destruct (tbl_messages (db r) !! (channel, m)) as [t|] eqn:E; [|done].
    assert ((channel, m) ∈ @nil (Z * Z)) as Hnil
      by (rewrite <- Hh; apply Hkeys; split; [done|rewrite E; eauto]).
    by apply elem_of_nil in Hnil.
Qed.

Lemma scan_after_bounds r cfg channel from_beginning :
  after cfg ≤ scan_after r cfg channel from_beginning.
Proof.
  unfold scan_after. destruct from_beginning; [done|].
  destruct (get_latest_message r channel) as [latest|]; [|done].
  case_bool_decide as H; [|done].
  unfold created_at in H. apply snowflake_time_lt in H. lia.
Qed.

Lemma scan_after_covers_queue r cfg channel :
  (∀ m, is_Some (tbl_messages (db r) !! (channel, m)) →
        snowflake_time (after cfg) < snowflake_time m) →
  ∀ m, is_Some (tbl_messages (db r) !! (channel, m)) →
       m ≤ scan_after r cfg channel false.
Proof.
  intros Hnewer m Hm. unfold scan_after.
  pose proof (get_latest_message_cases r channel) as Hl.
  destruct (get_latest_message r channel) as [latest|].
  - destruct Hl as [Hq Hmax]. rewrite bool_decide_eq_true_2; [by apply Hmax|].
    by apply Hnewer.
  - rewrite Hl in Hm. by destruct Hm.
Qed.

Lemma register_history_fresh found : ∀ bot n cfg channel,
  channels (message_registry bot) !! channel = Some cfg →
  is_Some (tbl_channels (db (message_registry bot)) !! channel) →
  (∀ m, m ∈ found → msg_channel m = channel) →
  NoDup (msg_id <$> found) →
  (∀ m, m ∈ found →
        tbl_messages (db (message_registry bot)) !! (channel, msg_id m) = None) →
  (∀ m, m ∈ found →
        fits_int64 (time_snowflake (msg_created_at m + duration cfg)) = true) →
  ∃ bot',
    register_history bot found n = (bot', Return (n + Z.of_nat (length found))) ∧
    channels (message_registry bot') = channels (message_registry bot) ∧
    tbl_channels (db (message_registry bot'))
      = tbl_channels (db (message_registry bot)) ∧
    (∀ m, m ∈ found →
          tbl_messages (db (message_registry bot')) !! (channel, msg_id m)
            = Some (time_snowflake (msg_created_at m + duration cfg))) ∧
    (∀ k, (∀ m, m ∈ found → k ≠ (channel, msg_id m)) →
          tbl_messages (db (message_registry bot')) !! k
            = tbl_messages (db (message_registry bot)) !! k) ∧
    wake_time bot' ≤ wake_time bot ∧
    (∀ m, m ∈ found → wake_time bot' ≤ msg_created_at m + duration cfg) ∧
    (found ≠ [] →
     durable (message_registry bot') = db (message_registry bot') ∧
     work_pending bot' = true).
Proof.
  induction found as [|m found IH];
    intros bot n cfg channel Hcfg Hrow Hch Hnd Hfresh Hfits.
  - exists bot. simpl. split; [f_equal; f_equal; lia|].
    split; [done|]. split; [done|]. split; [intros m Hm; by apply elem_of_nil in Hm|].
    split; [done|]. split; [lia|]. split; [intros m Hm; by apply elem_of_nil in Hm|].
    done.
  - assert (msg_channel m = channel) as Hm by (apply Hch; left).
    rewrite fmap_cons in Hnd. apply NoDup_cons in Hnd as [Hnotin Hnd].
    destruct (register_for_deletion_fresh bot m cfg) as
      (bot1 & Hreg & Hmir & Hrows & Hq & Hdur & Hwork & Hwake).
    { by rewrite Hm. } { by rewrite Hm. } { rewrite Hm. apply Hfresh. left. }
    { apply Hfits. left. }
    rewrite Hm in Hq.
    destruct (IH bot1 (n + 1) cfg channel) as
      (bot' & Hrest & Hmir' & Hrows' & Hq' & Hframe & Hwake' & Hwakes & Hlast).
    { by rewrite Hmir. } { by rewrite Hrows. }
    { intros m' Hm'. apply Hch. by right. } { done. }
    { intros m' Hm'. rewrite Hq. rewrite lookup_insert_ne.
      - apply Hfresh. by right.
      - intros [= Heq]. apply Hnotin. rewrite Heq.
        apply list_elem_of_fmap. eauto. }
    { intros m' Hm'. apply Hfits. by right. }
    exists bot'. simpl register_history. rewrite Hreg.
    split.
    { rewrite Hrest. f_equal. f_equal. rewrite length_cons. lia. }
    split; [by rewrite Hmir', Hmir|]. split; [by rewrite Hrows', Hrows|].
    split.
    { intros m' Hm'. apply elem_of_cons in Hm' as [->|Hm']; [|by apply Hq'].
      rewrite Hframe.
      - rewrite Hq. apply lookup_insert_eq.
      - intros m' Hm' [= Heq]. apply Hnotin. rewrite Heq.
        apply list_elem_of_fmap. eauto. }
    split.
    { intros k Hk. rewrite Hframe.
      - rewrite Hq. apply lookup_insert_ne. intros <-. by apply (Hk m); [left|].
      - intros m' Hm'. apply Hk. by right. }
    split; [lia|]. split.
    { intros m' Hm'. apply elem_of_cons in Hm' as [->|Hm']; [lia|].
      by apply Hwakes. }
    intros _. destruct found as [|m2 found].
    + simpl in Hrest. injection Hrest as <-. done.
    + by apply Hlast.
Qed.

Lemma collect_channels_breaks env used c keys : ∀ r found,
  get_channel env c = false →
  fetch_channel env c = Raise NotFound →
  size (channels r) ≠ used ∨
    (c ∈ keys ∧ ∀ k, k ∈ keys → is_Some (channels r !! k)) →
  ∃ e, (collect_channels env used r keys found).2 = ScanRaise e ∧
       (e = RuntimeError ∨
        ∃ k e', e = Propagated e' ∧ k ∈ keys ∧
                fetch_channel env k = Raise e' ∧ e' ≠ NotFound).
Proof.
  induction keys as [|k keys IH]; intros r found Hg Hf Hcase.
  - simpl. case_bool_decide as Hs; [eauto|].
    destruct Hcase as [?|[Hc _]]; [done|]. by apply elem_of_nil in Hc.
  - simpl. case_bool_decide as Hs; [eauto|].
    destruct Hcase as [?|[Hc Hcfg]]; [done|].
    assert (∀ e, (∃ e0, e = e0 ∧ (e0 = RuntimeError ∨
                   ∃ k' e', e0 = Propagated e' ∧ k' ∈ keys ∧
                            fetch_channel env k' = Raise e' ∧ e' ≠ NotFound)) →
                 e = RuntimeError ∨
                 ∃ k' e', e = Propagated e' ∧ k' ∈ k :: keys ∧
                          fetch_channel env k' = Raise e' ∧ e' ≠ NotFound) as Hweaken.
    { intros e (? & -> & [->|(k' & e' & -> & Hk' & Hfk' & Hne)]); [by left|].
      right. exists k', e'. split; [done|]. split; [by right|done]. }
    assert (∀ r' found',
              size (channels r') ≠ used ∨
                (c ∈ keys ∧ ∀ k, k ∈ keys → is_Some (channels r' !! k)) →
              ∃ e, (collect_channels env used r' keys found').2 = ScanRaise e ∧
                   (e = RuntimeError ∨
                    ∃ k' e', e = Propagated e' ∧ k' ∈ k :: keys ∧
                             fetch_channel env k' = Raise e' ∧ e' ≠ NotFound)) as Hrec.
    { intros r' found' Hcase'.
      destruct (IH r' found' Hg Hf Hcase') as (e & He & Hkind).
      exists e. split; [done|]. apply Hweaken. eauto. }
    assert (is_Some (channels r !! k)) as Hk by (apply Hcfg; left).
    assert (size (channels (deregister_channel r k).1) ≠ used) as Hshrunk.
    { rewrite (deregister_channel_Some _ _ Hk). simpl.
      rewrite map_size_delete_Some by done.
      destruct Hk as [cfg Hk].
      assert (size (channels r) ≠ 0%nat)
        by (intros H0; apply map_size_empty_iff in H0; by rewrite H0 in Hk).
      lia. }
    destruct (decide (k = c)) as [->|Hne].
    + rewrite Hg. unfold fetch_or_deregister_channel. rewrite Hg, Hf.
      apply Hrec. by left.
    + assert (c ∈ keys) as Hc' by (apply elem_of_cons in Hc as [->|]; done).
      assert (∀ k', k' ∈ keys → is_Some (channels r !! k')) as Hcfg'
        by (intros k' Hk'; apply Hcfg; by right).
      destruct (get_channel env k) eqn:Egk; [apply Hrec; by right|].
      unfold fetch_or_deregister_channel. rewrite Egk.
      destruct (fetch_channel env k) as [[]|e] eqn:Efk; [apply Hrec; by right|].
      destruct (decide (e = NotFound)) as [->|Hnf]; [apply Hrec; by left|].
      exists (Propagated e). split; [by destruct e|]. right.
      exists k, e. split; [done|]. split; [left|done].
Qed.

End scan_facts.

(** X12. The point from which [scan_channel] reads the history is never
    below the cutoff of the channel.  On a resumed scan, when every queued
    message of the channel was created after the millisecond of the cutoff,
    it is at or above every queued message of the channel: a history that
    only yields later messages yields none that is queued already. *)
Theorem scan_starts_beyond_cutoff_and_queue (r : MessageRegistry)
    (channel_config : AutoDeleteChannel) (channel : Z) (from_beginning : bool) :
  after channel_config ≤ scan_after r channel_config channel from_beginning ∧
  ((∀ m, is_Some (tbl_messages (db r) !! (channel, m)) →
         snowflake_time (after channel_config) < snowflake_time m) →
   ∀ m, is_Some (tbl_messages (db r) !! (channel, m)) →
        m ≤ scan_after r channel_config channel false).
Proof.
  split; [apply scan_after_bounds|apply scan_after_covers_queue].
Qed.

(** X13. [scan_channel] raises [ValueError] on a channel that is not
    configured and leaves the bot as it is.  On a configured channel whose
    history, read from the start point, yields messages of the channel with
    distinct ids none of which is queued, and whose deadlines have snowflakes
    that fit the signed 64-bit integer of SQLite, it registers all of them:
    the count is their number, each is queued with its creation time plus
    the duration of the channel, no other entry changes, and [wake_time] ends
    at or before its old value and every new deadline.  When the deadline of
    the first message of the history has a snowflake that does not fit, the
    scan raises [OverflowError] and leaves the bot as it is. *)
Theorem scan_channel_registers_history (history : Z → Z → list Message)
    (bot : AutoDeleteBot) (channel : Z) (from_beginning : bool) :
  registry_ok (message_registry bot) →
  match channels (message_registry bot) !! channel with
  | None => scan_channel history bot channel from_beginning = (bot, ScanRaise ValueError)
  | Some channel_config =>
      let found :=
        history channel
          (scan_after (message_registry bot) channel_config channel from_beginning) in
      ((∀ m, m ∈ found → msg_channel m = channel) →
       NoDup (msg_id <$> found) →
       (∀ m, m ∈ found →
             tbl_messages (db (message_registry bot)) !! (channel, msg_id m) = None) →
       (∀ m, m ∈ found →
             fits_int64 (time_snowflake (msg_created_at m + duration channel_config))
               = true) →
       ∃ bot',
         scan_channel history bot channel from_beginning
           = (bot', ScanReturn (Z.of_nat (length found))) ∧
         (∀ m, m ∈ found →
               tbl_messages (db (message_registry bot')) !! (channel, msg_id m)
                 = Some (time_snowflake (msg_created_at m + duration channel_config))) ∧
         (∀ k, (∀ m, m ∈ found → k ≠ (channel, msg_id m)) →
               tbl_messages (db (message_registry bot')) !! k
                 = tbl_messages (db (message_registry bot)) !! k) ∧
         channels (message_registry bot') = channels (message_registry bot) ∧
         wake_time bot' ≤ wake_time bot ∧
         (∀ m, m ∈ found → wake_time bot' ≤ msg_created_at m + duration channel_config)) ∧
      (∀ m rest,
         found = m :: rest →
         msg_channel m = channel →
         fits_int64 (time_snowflake (msg_created_at m + duration channel_config))
           = false →
         scan_channel history bot channel from_beginning
           = (bot, ScanRaise (Propagated OverflowError)))
  end.
Proof.
  intros Hr. unfold scan_channel.
  destruct (channels (message_registry bot) !! channel) as [cfg|] eqn:Ecfg; [|done].
  set (found := history channel
    (scan_after (message_registry bot) cfg channel from_beginning)).
  split.
  - intros Hch Hnd Hfresh Hfits.
    destruct (register_history_fresh found bot 0 cfg channel) as
      (bot' & Hreg & Hmir & _ & Hq & Hframe & Hwake & Hwakes & _); try done.
    { apply (ok_mirror_db _ Hr). rewrite Ecfg. eauto. }
    exists bot'. rewrite Hreg. rewrite Z.add_0_l. done.
  - intros m rest Hfound Hm Hfits. rewrite Hfound.
    cbn [register_history].
    unfold _register_message_for_deletion, register_message.
    rewrite Hm, Ecfg, Hfits. by rewrite set_message_registry_id.
Qed.

(** X14. The loop of [scan_all_channels] iterates over the mirror itself.
    If one of the configured channels is neither in the cache nor found on
    Discord, the loop never gives its list of channels: the channel is
    deregistered, which changes the size of the mirror, and the next step
    of the iteration raises [RuntimeError], unless the fetch of an earlier
    channel has already raised another error. *)
Theorem scan_all_channels_breaks_on_missing_channel (env : discord)
    (r : MessageRegistry) (keys : list Z) (channel : Z) :
  (∀ k, k ∈ keys → is_Some (channels r !! k)) →
  channel ∈ keys →
  get_channel env channel = false →
  fetch_channel env channel = Raise NotFound →
  ∃ e, (scan_all_channels_collect env r keys).2 = ScanRaise e ∧
       (e = RuntimeError ∨
        ∃ k e', e = Propagated e' ∧ k ∈ keys ∧
                fetch_channel env k = Raise e' ∧ e' ≠ NotFound).
Proof.
  intros Hcfg Hin Hg Hf. apply (collect_channels_breaks env _ channel); auto.
Qed.

Lemma scan_all_channels_breaks_on_missing_channel_witness :
  (scan_all_channels_collect channel_gone two_channels [1; 2]).2
    = ScanRaise RuntimeError ∧
  (scan_all_channels_collect channel_gone two_channels [2; 1]).2
    = ScanRaise RuntimeError.
Proof.
  assert (∀ k, k ∈ [1; 2] → is_Some (channels two_channels !! k)) as H12.
  { intros k Hk. apply elem_of_cons in Hk as [->|Hk]; [by exists channel_1|].
    apply list_elem_of_singleton in Hk as ->. by exists channel_2. }
  destruct (scan_all_channels_breaks_on_missing_channel channel_gone two_channels
              [1; 2] 1 H12) as (e & He & _);
    [left|reflexivity|reflexivity|].
  split; vm_compute; reflexivity.
Defined.

(** * Properties of the wait *)

(** X15. [_sleep_until], started with no active sleep, leaves none behind
    on every way out and keeps the registry and [work_pending].  It never
    returns early: when it returns, [wake_time] has been reached.  It only
    raises on a cancellation that did not come from [_shorten_sleep]; calls
    of [_shorten_sleep] alone never make it raise.  Left alone it returns at
    [wake_time], or at once when that instant has passed. *)
Theorem sleep_until_outcomes (now : Z) (evs : list (Z * wait_event))
    (bot : AutoDeleteBot) :
  active_sleep bot = None →
  chronological now evs →
  let o := _sleep_until now evs bot in
  active_sleep (outcome_bot o) = None ∧
  wake_time (outcome_bot o) ≤ wake_time bot ∧
  message_registry (outcome_bot o) = message_registry bot ∧
  work_pending (outcome_bot o) = work_pending bot ∧
  now ≤ resolve_time o ∧
  match o with
  | SleepReturned t b => wake_time b ≤ t
  | SleepRaised t e b => e = CancelledError ∧ (t, Cancel) ∈ evs
  end ∧
  (evs = [] → o = SleepReturned (Z.max now (wake_time bot)) bot).
Proof.
  intros Hnone Hchr o. unfold o, _sleep_until, sleep_loop_head.
  pose proof (sleep_until_bound now evs bot Hchr) as [Hlow _].
  unfold _sleep_until, sleep_loop_head in Hlow.
  case_bool_decide as Hs.
  - match goal with |- context [await_active_sleep _ ?tk ?b evs] =>
      pose proof (await_active_sleep_outcome evs now b tk) as H end.
    simpl in H. replace (now + (wake_time bot - now)) with (wake_time bot) in * by lia.
    specialize (H eq_refl eq_refl eq_refl ltac:(lia) Hchr).
    destruct H as (H1 & H2 & H3 & H4 & H5).
    split; [done|]. split; [done|]. split; [done|]. split; [done|].
    split; [done|]. split; [done|].
    intros ->. simpl. rewrite Z.max_r by lia. f_equal.
    destruct bot. simpl in *. by subst.
  - simpl. split; [done|]. split; [lia|]. split; [done|]. split; [done|].
    split; [lia|]. split; [lia|]. intros _. f_equal. lia.
Qed.

Lemma sleep_until_outcomes_witness :
  _sleep_until clock [] (bot_of false two_channels)
    = SleepReturned clock (bot_of false two_channels) ∧
  _sleep_until (clock - 500) [] (bot_of false two_channels)
    = SleepReturned clock (bot_of false two_channels).
Proof.
  destruct (sleep_until_outcomes clock [] (bot_of false two_channels))
    as (_ & _ & _ & _ & _ & _ & H1); [reflexivity|exact I|].
  destruct (sleep_until_outcomes (clock - 500) [] (bot_of false two_channels))
    as (_ & _ & _ & _ & _ & _ & H2); [reflexivity|exact I|].
  split; [exact (H1 eq_refl)|exact (H2 eq_refl)].
Defined.



(** * Properties of a pass *)

Section targets_facts.
Implicit Types (env : discord) (st : pass_state) (g : list PartialMessage).

Lemma targets_app calls calls' :
  targets (calls ++ calls') = targets calls ++ targets calls'.
Proof. apply bind_app. Qed.

Lemma targets_singles (l : list PartialMessage) : targets (SingleDelete <$> l) = l.
Proof. induction l as [|m l IH]; [done|]. rewrite fmap_cons. simpl. by f_equal. Qed.

Lemma targets_bulk {B : Type} c (f : B → list PartialMessage) (l : list B) :
  targets ((λ x, BulkDelete c (f x)) <$> l) = concat (f <$> l).
Proof. induction l as [|x l IH]; [done|]. rewrite !fmap_cons. simpl. by f_equal. Qed.

Lemma age_partition_perm env g : bulk_eligible env g ++ single_only env g ≡ₚ g.
Proof.
  unfold bulk_eligible, single_only.
  induction g as [|m g IH]; [done|].
  rewrite !filter_cons. repeat case_decide; try lia.
  - rewrite <- app_comm_cons. by constructor.
  - rewrite <- Permutation_middle. by constructor.
Qed.

Lemma route_group_targets env r c g r' calls :
  route_group env r c g = (r', Return calls) →
  calls = [] ∨ targets calls ≡ₚ g.
Proof.
  unfold route_group. fold (bulk_eligible env g). fold (single_only env g).
  pose proof (age_partition_perm env g) as Hperm.
  destruct (bulk_eligible env g) as [|m1 [|m2 young]] eqn:Ey.
  - intros [= _ <-]. right. by rewrite targets_singles.
  - intros [= _ <-]. right. simpl. by rewrite targets_singles.
  - destruct (if get_channel env c then _ else _) as [r'' [[]|e]].
    + intros [= _ <-]. right.
      rewrite targets_app, targets_singles, targets_bulk.
      change (concat (slices 100 (m1 :: m2 :: young)) ++ single_only env g ≡ₚ g).
      by rewrite slices_concat.
    + destruct (is_HTTPException e); [|done]. intros [= _ <-]. by left.
Qed.

Lemma route_group_targets_sub env r c g r' calls :
  route_group env r c g = (r', Return calls) → targets calls ⊆+ g.
Proof.
  intros H. apply route_group_targets in H as [->|H].
  - apply submseteq_nil_l.
  - by apply Permutation_submseteq.
Qed.

Lemma protect_pinned_Some env c g skipped g' skipped' :
  protect_pinned env c g skipped = Return (Some (g', skipped')) →
  g' `sublist_of` g ∧
  ∀ m channel_pins, m ∈ g' → pins env c = Return channel_pins →
                    pm_id m ∉ channel_pins.
Proof.
  unfold protect_pinned. case_bool_decide.
  - destruct (pins env c) as [channel_pins|e].
    + pose proof (sublist_filter (λ m, pm_id m ∉ channel_pins) g) as Hsub.
      pose proof (λ m, proj1 (list_elem_of_filter (λ m, pm_id m ∉ channel_pins) g m))
        as Hin.
      destruct (filter _ g); [done|]. intros [= <- _]. split; [done|].
      intros m P Hm [= <-]. by apply Hin.
    + destruct (is_HTTPException e); [|done].
      destruct g; [done|]. intros [= <- _]. done.
  - destruct g as [|m g]; done.
Qed.

Lemma process_group_targets env protect st c g st' :
  process_group env protect st (c, g) = (st', None) →
  ∃ calls,
    deletions st' = deletions st ++ calls ∧
    targets calls ⊆+ g ∧
    (protect = true →
     ∀ m channel_pins, m ∈ targets calls → pins env c = Return channel_pins →
                       pm_id m ∉ channel_pins).
Proof.
  unfold process_group. destruct protect.
  - destruct (protect_pinned env c g (skipped_count st)) as [[[g' sk]|]|e] eqn:Ep.
    + apply protect_pinned_Some in Ep as [Hsub Hpins].
      destruct (route_group env (registry st) c g') as [r' [calls|e]] eqn:Er; [|done].
      apply route_group_targets_sub in Er. intros [= <-]. exists calls. simpl.
      split; [done|]. split.
      * etrans; [exact Er|]. by apply sublist_submseteq.
      * intros _ m P Hm. apply Hpins. by eapply elem_of_submseteq.
    + intros [= <-]. exists []. rewrite app_nil_r. split; [done|].
      split; [apply submseteq_nil_l|]. intros _ m P Hm. by apply elem_of_nil in Hm.
    + done.
  - destruct (route_group env (registry st) c g) as [r' [calls|e]] eqn:Er; [|done].
    apply route_group_targets_sub in Er. intros [= <-]. exists calls. simpl.
    split; [done|]. split; [done|]. done.
Qed.

Lemma process_groups_targets env protect groups : ∀ st st',
  process_groups env protect st groups = (st', None) →
  ∃ calls,
    deletions st' = deletions st ++ calls ∧
    targets calls ⊆+ concat groups.*2 ∧
    (protect = true →
     (∀ c g m, (c, g) ∈ groups → m ∈ g → pm_channel m = c) →
     ∀ m channel_pins, m ∈ targets calls →
       pins env (pm_channel m) = Return channel_pins → pm_id m ∉ channel_pins).
Proof.
  induction groups as [|[c g] groups IH]; intros st st'.
  - intros [= <-]. exists []. rewrite app_nil_r. split; [done|].
    split; [done|]. intros _ _ m P Hm. by apply elem_of_nil in Hm.
  - rewrite process_groups_cons, fmap_cons, concat_cons.
    destruct (process_group env protect st (c, g)) as [st1 [e|]] eqn:Eg;
      [intros ?; simplify_eq|].
    apply process_group_targets in Eg as (calls1 & Hd1 & Hsub1 & Hpin1).
    intros Hrest. apply IH in Hrest as (calls2 & Hd2 & Hsub2 & Hpin2).
    exists (calls1 ++ calls2). rewrite Hd2, Hd1, (assoc_L (++)).
    split; [done|]. rewrite targets_app. split; [by apply submseteq_app|].
    intros Hp Hch m P Hm. apply elem_of_app in Hm as [Hm|Hm].
    + assert (pm_channel m = c) as ->.
      { apply (Hch c g); [left|]. by eapply elem_of_submseteq. }
      by apply Hpin1.
    + apply Hpin2; [done| |done]. intros c' g' m' Hin. apply Hch. by right.
Qed.


Lemma issued_no_more_than_popped env bot :
  (length (issued (clear_expired_messages env bot))
     ≤ length (popped (clear_expired_messages env bot)))%nat.
Proof.
  unfold clear_expired_messages.
  destruct (pop_expired_messages _ _) as [r messages].
  destruct (process_groups _ _ _ _) as [st' [e|]] eqn:Eg; simpl; [lia|].
  apply process_groups_length in Eg. rewrite groupby_concat in Eg. simpl in Eg.
  destruct (check_results _ 0); simpl; lia.
Qed.

End targets_facts.

(** X17. Whatever Discord answers, the calls of a pass are about popped
    messages only, and about each of them at most once: the messages the
    issued calls name, counted with multiplicity, are among the popped
    batch, and none is named twice. *)
Theorem issued_calls_target_popped_messages (env : discord) (bot : AutoDeleteBot) :
  let report := clear_expired_messages env bot in
  targets (issued report) ⊆+ popped report ∧
  NoDup (targets (issued report)).
Proof.
  intros report.
  assert (targets (issued report) ⊆+ popped report) as Hsub.
  { unfold report, clear_expired_messages.
    destruct (pop_expired_messages _ _) as [r messages].
    destruct (process_groups _ _ _ _) as [st' [e|]] eqn:Eg; simpl;
      [apply submseteq_nil_l|].
    apply process_groups_targets in Eg as (calls & Hd & Hsub & _).
    simpl in Hd. rewrite groupby_concat in Hsub.
    destruct (check_results _ 0); simpl; by rewrite Hd. }
  split; [done|].
  assert (NoDup (popped report)) as Hnd.
  { unfold report, clear_expired_messages.
    pose proof (pop_NoDup (utcnow env) (message_registry (set_work_pending false bot)))
      as Hnd.
    destruct (pop_expired_messages _ _) as [r messages].
    destruct (process_groups _ _ _ _) as [st' [e|]]; simpl; [done|].
    destruct (check_results _ 0); done. }
  apply submseteq_Permutation in Hsub as [k Hk]. rewrite Hk in Hnd.
  by apply NoDup_app in Hnd as [Hnd _].
Qed.

(** X18. With the pin protection on, no call of a pass names a message
    that the [pins] call of its channel reports as pinned. *)
Theorem pinned_messages_are_never_targeted (env : discord) (bot : AutoDeleteBot) :
  protect_pins bot = true →
  ∀ m channel_pins,
    m ∈ targets (issued (clear_expired_messages env bot)) →
    pins env (pm_channel m) = Return channel_pins →
    pm_id m ∉ channel_pins.
Proof.
  intros Hp m P. unfold clear_expired_messages.
  destruct (pop_expired_messages _ _) as [r messages].
  change (protect_pins (set_work_pending false bot)) with (protect_pins bot).
  rewrite Hp.
  pose proof (groupby_members messages) as Hmem.
  destruct (process_groups _ _ _ _) as [st' [e|]] eqn:Eg; simpl.
  { intros Hm. by apply elem_of_nil in Hm. }
  apply process_groups_targets in Eg as (calls & Hd & _ & Hpins).
  simpl in Hd. specialize (Hpins eq_refl).
  assert (∀ m, m ∈ targets (deletions st') → pins env (pm_channel m) = Return P →
               pm_id m ∉ P) as H.
  { intros m' Hm'. rewrite Hd in Hm'. apply Hpins; [|done].
    intros c g m'' Hin Hm''. eapply Forall_forall in Hmem; [|exact Hin].
    by apply Hmem. }
  destruct (check_results _ 0); simpl; apply H.
Qed.

Lemma pinned_messages_are_never_targeted_witness :
  partial a1 ∈ popped (clear_expired_messages pinned_a1
                         (bot_of true (register_all [a1; a2; a3; b1] two_channels))) ∧
  partial a1 ∉ targets (issued (clear_expired_messages pinned_a1
                         (bot_of true (register_all [a1; a2; a3; b1] two_channels)))).
Proof.
  split; [vm_compute; repeat first [left|right]|].
  intros Hin.
  apply (pinned_messages_are_never_targeted pinned_a1
           (bot_of true (register_all [a1; a2; a3; b1] two_channels)) eq_refl
           (partial a1) [msg_id a1] Hin); [reflexivity|left].
Defined.



(** X20. A pass that finds nothing to delete makes no call to Discord,
    reports nothing attempted and commits; the commit still makes the
    removal of the expired entries at or below their cutoff durable. *)
Theorem empty_batch_commits_without_calls (env : discord) (bot : AutoDeleteBot) :
  (pop_expired_messages (utcnow env) (message_registry bot)).2 = [] →
  let report := clear_expired_messages env bot in
  issued report = [] ∧
  verdict report = Return (0, 0) ∧
  work_pending (bot_after report) = false ∧
  message_registry (bot_after report)
    = commit (pop_expired_messages (utcnow env) (message_registry bot)).1 ∧
  ∀ c m d, tbl_messages (durable (message_registry (bot_after report))) !! (c, m) = Some d →
           ¬ d ≤ time_snowflake (utcnow env).
Proof.
  intros Hempty report. unfold report, clear_expired_messages.
  change (message_registry (set_work_pending false bot)) with (message_registry bot).
  destruct (pop_expired_messages (utcnow env) (message_registry bot))
    as [r messages] eqn:Epop.
  simpl in Hempty. subst messages. simpl.
  split; [done|]. split; [done|]. split; [done|]. split; [done|].
  intros c m d Hd. injection Epop as <- _. simpl in Hd.
  apply map_lookup_filter_Some in Hd as [_ Hd]. exact Hd.
Qed.

Lemma empty_batch_commits_without_calls_witness :
  verdict (clear_expired_messages healthy (bot_of false two_channels)) = Return (0, 0).
Proof.
  destruct (empty_batch_commits_without_calls healthy (bot_of false two_channels))
    as (_ & H & _); [reflexivity|exact H].
Defined.

(** X23. When no channel is deregistered during the pass, a pass that
    returns has committed the pop, and every call it issued either
    succeeded, or failed with [Forbidden] or [NotFound], or was cancelled:
    a [CancelledError] among the results is not an [Exception], and the
    loop over the results lets it pass. *)
Theorem pass_return_commits (env : discord) (bot : AutoDeleteBot) counts :
  no_deregistration env →
  verdict (clear_expired_messages env bot) = Return counts →
  message_registry (bot_after (clear_expired_messages env bot))
    = commit (pop_expired_messages (utcnow env) (message_registry bot)).1 ∧
  ∀ call, call ∈ issued (clear_expired_messages env bot) →
          run_deletion env call = Return tt ∨
          run_deletion env call = Raise Forbidden ∨
          run_deletion env call = Raise NotFound ∨
          run_deletion env call = Raise CancelledError.
Proof.
  intros Hf Hv.
  destruct (pass_commits_or_rolls_back env bot Hf) as [_ Hm].
  rewrite Hv in Hm. destruct Hm as (Hm & _ & Hnone). split; [done|].
  rewrite snd_zip in Hnone
    by (rewrite length_fmap; apply issued_no_more_than_popped).
  intros call Hcall.
  assert (¬ fatal_result (run_deletion env call)) as Hok.
  { intros Hfatal. apply Hnone, Exists_exists.
    exists (run_deletion env call). split; [|done].
    apply list_elem_of_fmap. eauto. }
  destruct (run_deletion env call) as [[]|e]; [by left|].
  destruct e; auto; exfalso; apply Hok; by repeat split.
Qed.

Lemma pass_return_commits_witness :
  message_registry (bot_after (clear_expired_messages healthy
                                 (bot_of false (register_all [a1; a2; b1] two_channels))))
    = commit (pop_expired_messages clock (register_all [a1; a2; b1] two_channels)).1.
Proof.
  destruct (pass_return_commits healthy
              (bot_of false (register_all [a1; a2; b1] two_channels)) (3, 0))
    as [H _].
  - intros c Hc. discriminate Hc.
  - vm_compute. reflexivity.
  - exact H.
Defined.

(** * The further properties at concrete inputs *)

Lemma fk_ok_empty_database : fk_ok empty_database.
Proof. intros c m t. simpl. by rewrite lookup_empty. Qed.

Lemma reachable_registry_consistent_witness :
  registry_ok
    (run_calls (open empty_database)
       [RegisterChannel channel_1; RegisterMessage a1; PopExpired clock; Rollback;
        DeregisterChannel 1]).
Proof. apply reachable_registry_consistent, fk_ok_empty_database. Defined.

Lemma reopen_restores_mirror_witness :
  channels
    (open (durable
       (run_calls (open empty_database)
          [RegisterChannel channel_1; RegisterChannel channel_2;
           RegisterMessage a1; DeregisterChannel 2])))
    !! 1 = Some channel_1.
Proof.
  rewrite (reopen_restores_mirror empty_database
             [RegisterChannel channel_1; RegisterChannel channel_2;
              RegisterMessage a1; DeregisterChannel 2] fk_ok_empty_database).
  vm_compute. reflexivity.
Defined.

Lemma protected_entries_are_announced_but_never_popped_witness :
  is_Some (get_next_expiring_message (register_all [confirmation] two_channels)) ∧
  ∀ now, (pop_expired_messages now (register_all [confirmation] two_channels)).2 = [].
Proof.
  assert (tbl_messages (db (register_all [confirmation] two_channels))
          = {[ (1, 100) := time_snowflake 1700000600000000 ]}) as Hq
    by (vm_compute; reflexivity).
  apply protected_entries_are_announced_but_never_popped.
  - rewrite Hq. intros H. apply (f_equal (λ q : gmap (Z * Z) Z, q !! (1, 100))) in H.
    vm_compute in H. discriminate H.
  - intros c m d row Hm Hrow. rewrite Hq in Hm.
    apply lookup_singleton_Some in Hm as [[= <- <-] _].
    vm_compute in Hrow. injection Hrow as <-. simpl. lia.
Defined.

Lemma scan_channel_registers_history_witness :
  ∃ bot', scan_channel history_1 (bot_of false two_channels) 1 false
            = (bot', ScanReturn 2) ∧
          wake_time bot' ≤ 1700000600000000.
Proof.
  pose proof (scan_channel_registers_history history_1 (bot_of false two_channels)
                1 false registry_ok_two_channels) as H.
  assert (channels (message_registry (bot_of false two_channels)) !! 1 = Some channel_1)
    as E by reflexivity.
  rewrite E in H.
  assert (history_1 1 (scan_after (message_registry (bot_of false two_channels))
                         channel_1 1 false) = [a1; a2]) as Hfound
    by (vm_compute; reflexivity).
  cbv zeta in H. rewrite Hfound in H. destruct H as [H _].
  destruct H as (bot' & Hscan & _ & _ & _ & _ & Hwake).
  - intros m Hm. apply elem_of_cons in Hm as [->|Hm]; [reflexivity|].
    apply list_elem_of_singleton in Hm as ->. reflexivity.
  - change (NoDup [msg_id a1; msg_id a2]). apply NoDup_cons.
    split; [|apply NoDup_singleton]. intros Hin.
    apply list_elem_of_singleton in Hin. vm_compute in Hin. discriminate Hin.
  - intros m Hm. apply elem_of_cons in Hm as [->|Hm]; [reflexivity|].
    apply list_elem_of_singleton in Hm as ->. reflexivity.
  - intros m Hm. apply elem_of_cons in Hm as [->|Hm]; [reflexivity|].
    apply list_elem_of_singleton in Hm as ->. reflexivity.
  - exists bot'. split; [exact Hscan|]. apply (Hwake a1). left.
Defined.

Lemma scan_starts_beyond_cutoff_and_queue_witness :
  100 ≤ scan_after (register_all [a1; a2] two_channels) channel_1 1 false ∧
  msg_id a2 ≤ scan_after (register_all [a1; a2] two_channels) channel_1 1 false.
Proof.
  destruct (scan_starts_beyond_cutoff_and_queue (register_all [a1; a2] two_channels)
              channel_1 1 false) as [H1 H2].
  split; [exact H1|]. apply H2.
  - assert (tbl_messages (db (register_all [a1; a2] two_channels))
            = {[ (1, msg_id a1) := time_snowflake 1700000600000000;
                 (1, msg_id a2) := time_snowflake 1700000600000000 ]}) as Hq
      by (vm_compute; reflexivity).
    intros m [d Hm]. rewrite Hq in Hm.
    apply lookup_insert_Some in Hm as [[[= <-] _]|[_ Hm]]; [vm_compute; reflexivity|].
    apply lookup_singleton_Some in Hm as [[= <-] _]. vm_compute. reflexivity.
  - exists (time_snowflake 1700000600000000). vm_compute. reflexivity.
Defined.

(** * Messages that arrive during a pass *)

Section arrival_facts.
Implicit Types (env : discord) (bot : AutoDeleteBot) (arrivals : list Message).



Lemma clear_expired_messages_during_nil env bot :
  clear_expired_messages_during [] env bot = clear_expired_messages env bot.
Proof.
  unfold clear_expired_messages_during, clear_expired_messages.
  destruct (pop_expired_messages _ _) as [r messages].
  destruct (process_groups _ _ _ _) as [st [e|]]; [done|].
  destruct (check_results _ 0); by destruct bot.
Qed.


End arrival_facts.



Lemma register_message_after_pop now r r' message delete_at :
  register_message (pop_expired_messages now r).1 message
    = (r', Return (Some delete_at)) →
  durable r' = db r' ∧
  ∀ c m d,
    tbl_messages (db r') !! (c, m) = Some d →
    (c, m) = (msg_channel message, msg_id message) ∨ ¬ d ≤ time_snowflake now.
Proof.
  unfold register_message, SQL.insert_message.
  destruct (channels _ !! _) as [cfg|]; [|done].
  destruct (fits_int64 _); [|done].
  destruct (tbl_channels _ !! _) as [row|]; [|done].
  destruct (tbl_messages _ !! _) as [t|] eqn:Eq; [done|].
  intros [= <- <-]. split; [done|]. intros c m d. simpl.
  destruct (decide ((msg_channel message, msg_id message) = (c, m))) as [->|Hne];
    [by left|].
  rewrite lookup_insert_ne by done. rewrite map_lookup_filter_Some. simpl.
  intros [_ Hd]. by right.
Qed.

(** X24. A message that is registered while the pass awaits its calls
    commits the deletions of the pop with its own entry.  If the pass then
    raises, its rollback has nothing to undo: the registry is the one the
    registration left, and a pop at the same instant returns nothing of the
    batch, at most the message that arrived. *)
Theorem arrival_during_pass_commits_pop (env : discord) (bot : AutoDeleteBot)
    (message : Message) (r' : MessageRegistry) (delete_at : Z) e :
  no_deregistration env →
  verdict (clear_expired_messages_during [message] env bot) = Raise e →
  issued (clear_expired_messages_during [message] env bot) ≠ [] →
  register_message (pop_expired_messages (utcnow env) (message_registry bot)).1 message
    = (r', Return (Some delete_at)) →
  let report := clear_expired_messages_during [message] env bot in
  message_registry (bot_after report) = r' ∧
  durable r' = db r' ∧
  ∀ p, p ∈ (pop_expired_messages (utcnow env) (message_registry (bot_after report))).2 →
       p = {| pm_channel := msg_channel message; pm_id := msg_id message |}.
Proof.
  intros Hf Hv Hissued Hreg report.
  destruct (register_message_after_pop _ _ _ _ _ Hreg) as [Hdur Hdue].
  assert (message_registry (bot_after report) = r') as Hafter.
  { unfold report. revert Hv Hissued Hreg.
    unfold clear_expired_messages_during.
    change (message_registry (set_work_pending false bot)) with (message_registry bot).
    destruct (pop_expired_messages _ _) as [r messages] eqn:Epop.
    match goal with |- context [process_groups env ?p ?st ?gs] =>
      pose proof (process_groups_registry env p gs st Hf) as Hst;
      destruct (process_groups env p st gs) as [st' [e'|]] end;
      simpl in Hst; [by intros _ Hi|].
    cbn [foldl]. unfold on_message, _register_message_for_deletion.
    cbn [message_registry set_message_registry fst]. rewrite Hst.
    intros Hv _ Hreg. rewrite Hreg.
    destruct (check_results _ 0) as [n|e'']; [done|].
    cbn [bot_after message_registry set_message_registry fst __aexit__].
    match goal with |- context [_shorten_sleep delete_at ?b] =>
      destruct (shorten_sleep_frame b delete_at) as (Hframe & _ & _) end.
    rewrite Hframe. cbn [message_registry set_work_pending set_message_registry].
    unfold rollback. clear - Hdur. destruct r' as [ch d du].
    cbn [channels db durable] in *. by subst. }
  split; [exact Hafter|]. split; [exact Hdur|].
  intros [c m] Hp. rewrite Hafter in Hp.
  apply pop_elem_of in Hp as (t & row & Ht & _ & Hle & _).
  apply Hdue in Ht as [[= -> ->]|Hn]; [done|]. by destruct Hn.
Qed.

Lemma arrival_during_pass_commits_pop_witness :
  let bot := bot_of false (register_all [a1; a2; b1] two_channels) in
  let report := clear_expired_messages_during [a3] server_error bot in
  verdict report = Raise HTTPException ∧
  popped report = [partial a1; partial a2; partial b1] ∧
  (pop_expired_messages clock (message_registry (bot_after report))).2 = [partial a3].
Proof.
  intros bot report.
  destruct (register_message
              (pop_expired_messages (utcnow server_error) (message_registry bot)).1 a3)
    as [r' res] eqn:E.
  destruct (arrival_during_pass_commits_pop server_error bot a3 r'
              1700000600000000 HTTPException) as (H1 & _ & _).
  - intros c Hc. discriminate Hc.
  - vm_compute. reflexivity.
  - vm_compute. discriminate.
  - rewrite E. vm_compute in E. injection E as <- <-. reflexivity.
  - split; [vm_compute; reflexivity|]. split; [vm_compute; reflexivity|].
    vm_compute. reflexivity.
Defined.
